(** * Verification of the statistics helpers of qtt

    Shallow embedding of
    - [qtt/tools.py]: [flatten];
    - [nv/example_simple.py]: the class-probability estimate ([bc], [prob]),
      the label-tracking loop ([onetwo], [threefour]), the generator
      [generate_double2lvl] and the stacking of the bigram predictions
      ([y_pred2]);
    - [nvtools.nvtools]: [two_grams] and [avg_steps], which the script imports.

    and, beyond the statistics,
    - [qtt/tools.py]: [resetgates], [plot_parameter], [tilefigs] and
      [cutoffFilter];
    - [nv/example_simple.py]: [plotI] and the masked predictions [y_pred];
    - [examples/1dot_script_batch.py]: the gate lists and base values,
      [getSDval] and the scan job of [onedotScan].

    numpy's float64 quotients are embedded as exact rationals ([Qc]); integer
    arrays as [list Z] or [list nat]; Python exceptions as the [Raise]
    constructor of [result]. *)

From Stdlib Require Import QArith Qcanon.
From stdpp Require Import base option list numbers gmap sorting strings
  pretty.
From Equations.Prop Require Import Equations Logic.

Set Default Proof Using "Type".

(** ** Results of calls that can raise *)

Inductive error : Type :=
| InputValidationError
| KeyError
| IndexError
| ValueError.

Inductive result (A : Type) : Type :=
| Ok (a : A)
| Raise (e : error).
Arguments Ok {A} a.
Arguments Raise {A} e.

Global Instance result_ret : MRet result := λ A a, Ok a.

Global Instance result_bind : MBind result := λ A B k r,
  match r with
  | Ok a => k a
  | Raise e => Raise e
  end.

Definition of_option {A} (e : error) (o : option A) : result A :=
  match o with
  | Some a => Ok a
  | None => Raise e
  end.

Fixpoint mapR {A B} (f : A → result B) (l : list A) : result (list B) :=
  match l with
  | [] => Ok []
  | a :: l' => b ← f a; bs ← mapR f l'; Ok (b :: bs)
  end.

(** [enumerate(l)] *)
Definition enumerate {A} (l : list A) : list (nat * A) := imap pair l.

(** ** qtt/tools.py *)

Module Tools.
Section chain.
Context {A : Type}.

(** The iterator made by [itertools.chain] over the unpacked [lst]: the inner list being
    read and the inner lists not yet started. *)
Record chain_iter : Type := ChainIter {
  current : list A;
  pending : list (list A)
}.

Definition chain (lst : list (list A)) : chain_iter :=
  {| current := []; pending := lst |}.

(** [next(it)]: the next element and the advanced iterator, or [None]
    for [StopIteration]. Exhausted inner lists are skipped. *)
Fixpoint next_from (cur : list A) (rest : list (list A))
    : option (A * chain_iter) :=
  match cur with
  | x :: cur' => Some (x, {| current := cur'; pending := rest |})
  | [] =>
      match rest with
      | [] => None
      | inner :: rest' => next_from inner rest'
      end
  end.

Definition next (it : chain_iter) : option (A * chain_iter) :=
  next_from (current it) (pending it).

(** What is left to do: one unit per element and per inner list. *)
Definition todo (it : chain_iter) : nat :=
  length (current it) + sum_list ((λ l, S (length l)) <$> pending it).

Lemma next_from_todo cur rest x it' :
  next_from cur rest = Some (x, it') →
  todo it' < todo {| current := cur; pending := rest |}.
Proof.
  revert cur. induction rest as [|inner rest IH]; intros cur.
  - destruct cur as [|y cur']; simpl; [done|].
    intros [= <- <-]. unfold todo; csimpl. lia.
  - destruct cur as [|y cur']; simpl.
    + intros H. apply IH in H. unfold todo in *; csimpl in *. lia.
    + intros [= <- <-]. unfold todo; csimpl. lia.
Qed.

Lemma next_todo it x it' : next it = Some (x, it') → todo it' < todo it.
Proof. destruct it as [cur rest]. apply next_from_todo. Qed.

(** [list(it)]: call [next] until [StopIteration]. *)
Equations? list_of_iter (it : chain_iter) : list A by wf (todo it) lt :=
  list_of_iter it with inspect (next it) := {
    | exist _ (Some (x, it')) Hnext := x :: list_of_iter it';
    | exist _ None _ := []
  }.
Proof. by apply next_todo with x. Qed.

(** [flatten(lst)] is [list] of [chain] over the unpacked [lst] *)
Definition flatten (lst : list (list A)) : list A :=
  list_of_iter (chain lst).

Lemma list_of_iter_step it :
  list_of_iter it =
    match next it with
    | Some (x, it') => x :: list_of_iter it'
    | None => []
    end.
Proof.
  funelim (list_of_iter it).
  all: match goal with H : next _ = _ |- _ => by rewrite H end.
Qed.

Lemma list_of_iter_spec cur rest :
  list_of_iter {| current := cur; pending := rest |} = cur ++ concat rest.
Proof.
  revert cur. induction rest as [|inner rest IH]; intros cur.
  - induction cur as [|x cur IHc].
    + by rewrite list_of_iter_step.
    + rewrite list_of_iter_step. unfold next; simpl. by rewrite IHc.
  - induction cur as [|x cur IHc].
    + rewrite list_of_iter_step. unfold next; simpl.
      specialize (IH inner). rewrite list_of_iter_step in IH.
      unfold next in IH; simpl in IH. by rewrite IH.
    + rewrite list_of_iter_step. unfold next; simpl. by rewrite IHc.
Qed.

Lemma length_concat_sum (l : list (list A)) :
  length (concat l) = sum_list (length <$> l).
Proof.
  induction l as [|x l IH]; csimpl; [done|].
  rewrite length_app. lia.
Qed.
End chain.
End Tools.

(** ** numpy arrays as lists *)

Global Instance Qc_inhabited : Inhabited Qc := populate 0%Qc.

(** An integer read as a float. *)
Definition Qc_of_nat (n : nat) : Qc := Qc_of_Z (Z.of_nat n).

(** The sum of the entries of a float array. *)
Definition Qc_sum (l : list Qc) : Qc := foldr Qcplus 0%Qc l.

(** How often [v] occurs in [l]. *)
Definition occurrences `{EqDecision A} (v : A) (l : list A) : nat :=
  length (filter (λ y, y = v) l).

Module Np.
Local Open Scope nat_scope.

(** [np.zeros(n)] *)
Definition zeros {A} (zero : A) (n : nat) : list A := replicate n zero.

(** The counting pass of [bincount]: [out[v] += 1] for each [v]. *)
Definition accumulate (out : list nat) (x : list nat) : list nat :=
  foldl (λ out v, alter S v out) out x.

(** [np.bincount(x)]: one bin per value up to the largest one, each
    element of [x] adds one to its bin; no bin at all for an empty [x]. *)
Definition bincount (x : list nat) : list nat :=
  match x with
  | [] => []
  | _ :: _ => accumulate (zeros 0 (S (max_list x))) x
  end.

(** [a.sum()] of an integer array *)
Definition sum (a : list nat) : nat := sum_list a.

(** [a / s] for an integer array and an integer: true division, element
    by element. *)
Definition true_divide (a : list nat) (s : nat) : list Qc :=
  (λ v, Qc_of_nat v / Qc_of_nat s)%Qc <$> a.

End Np.

(** ** nv/example_simple.py: class probabilities *)

Module NV.
Local Open Scope nat_scope.

(** [chars = sorted(list(set(labels)))] *)
Definition chars (labels : list Z) : list Z :=
  merge_sort Z.le (elements (list_to_set labels : gset Z)).

(** [dict((c, i) for i, c in enumerate(chars))]: pairs are stored in
    order, a later pair replacing an earlier one with the same key. *)
Definition char_indices (chars : list Z) : gmap Z nat :=
  foldl (λ m ic, <[ic.2 := ic.1]> m) ∅ (enumerate chars).

(** [labelsX = [char_indices[c] for c in labels]] *)
Definition labelsX (char_indices : gmap Z nat) (labels : list Z)
    : result (list nat) :=
  mapR (λ c, of_option KeyError (char_indices !! c)) labels.

(** [bc = np.bincount(labelsX)]; [prob = bc / bc.sum()] (lines 182 and
    183, and lines 81 and 82 on the labels encoded by [LabelEncoder]) *)
Definition prob (labelsX : list nat) : list Qc :=
  let bc := Np.bincount labelsX in
  Np.true_divide bc (Np.sum bc).

(** Lines 176 to 183 as one call: from the labels to [prob]. *)
Definition class_prob (labels : list Z) : result (list Qc) :=
  lx ← labelsX (char_indices (chars labels)) labels;
  Ok (prob lx).

(** *** The label-tracking loop, lines 119 to 135 *)

(** One branch group of the loop body: [arr[ii] = a] if the label is [a],
    [arr[ii] = b] if it is [b], else [arr[ii] = arr[ii - 1]]. *)
Definition track (a b : Z) (arr : list Z) (ii : nat) (l : Z) : list Z :=
  if decide (l = a) then <[ii := a]> arr
  else if decide (l = b) then <[ii := b]> arr
  else <[ii := arr !!! (ii - 1)]> arr.

(** The loop body; [ii == 0] takes the [continue]. *)
Definition track_body (st : list Z * list Z) (iil : nat * Z)
    : list Z * list Z :=
  let '(onetwo, threefour) := st in
  let '(ii, l) := iil in
  if decide (ii = 0) then st
  else (track 1 2 onetwo ii l, track 3 4 threefour ii l).

(** [onetwo] and [threefour] start as [np.zeros(len(labels))]; the float
    arrays only ever hold 0 to 4 and are embedded as integers. *)
Definition track_loop (labels : list Z) : list Z * list Z :=
  foldl track_body
    (Np.zeros 0%Z (length labels), Np.zeros 0%Z (length labels))
    (enumerate labels).

Definition onetwo (labels : list Z) : list Z := (track_loop labels).1.
Definition threefour (labels : list Z) : list Z := (track_loop labels).2.

(** *** [generate_double2lvl], lines 152 to 160 *)

(** The state of numpy's global generator: the values it will return
    and how many were drawn. *)
Record rng : Type := Rng {
  samples : nat → Qc;
  drawn : nat
}.

(** [np.random.rand()] *)
Definition rand (g : rng) : Qc * rng :=
  (samples g (drawn g), {| samples := samples g; drawn := S (drawn g) |}).

(** The loop body: one draw, then [x[ii + 1] = x[ii] ^ 1] or
    [x[ii + 1] = x[ii] ^ 2]. *)
Definition flip_body (p : Qc) (st : list Z * rng) (ii : nat)
    : list Z * rng :=
  let '(x, g) := st in
  let '(u, g') := rand g in
  if decide (u ≤ p)%Qc
  then (<[ii + 1 := Z.lxor (x !!! ii) 1]> x, g')
  else (<[ii + 1 := Z.lxor (x !!! ii) 2]> x, g').

(** [x = np.zeros(N,).astype(int)], then the loop over [range(N - 1)];
    [q] is not used. *)
Definition generate_double2lvl (N : nat) (p q : Qc) (g : rng)
    : list Z * rng :=
  foldl (flip_body p) (Np.zeros 0%Z N, g) (seq 0 (N - 1)).
End NV.

(** ** nvtools.nvtools, as the specification describes it *)

Module Nvtools.
Local Open Scope nat_scope.

(** Modelled from the spec: the stable index of a symbol, its position in
    the alphabet; a symbol outside the alphabet is malformed input. *)
Definition symbol_index (alphabet : list Z) (c : Z) : result nat :=
  of_option InputValidationError (fst <$> list_find (λ a, a = c) alphabet).

(** Modelled from the spec: one increment of the count at row [r],
    column [c]. *)
Definition increment (gg : list (list Z)) (r c : nat) : list (list Z) :=
  alter (alter Z.succ c) r gg.

(** Modelled from the spec: [two_grams(alphabet, text)] of nvtools is
    imported by the script and missing from the sources. An empty
    sequence and a symbol outside the alphabet are input-validation
    failures found before counting; then every adjacent pair
    [(sequence[i], sequence[i+1])] adds one at row [index of
    sequence[i+1]] and column [index of sequence[i]] of a square matrix
    of zeros. *)
Definition two_grams (alphabet sequence : list Z)
    : result (list (list Z)) :=
  if decide (sequence = []) then Raise InputValidationError
  else
    idx ← mapR (symbol_index alphabet) sequence;
    let k := length alphabet in
    Ok (foldl (λ gg cn, increment gg cn.2 cn.1)
          (Np.zeros (Np.zeros 0%Z k) k) (zip idx (tail idx))).

(** Modelled from the spec: symbol [i] is guessed no later than symbol
    [j], larger probability first, the lower index first among equal
    probabilities. *)
Definition guessed_before (p : list Qc) (i j : nat) : Prop :=
  (p !!! j < p !!! i)%Qc ∨ (p !!! j = p !!! i ∧ i ≤ j).

Global Instance guessed_before_dec p i j : Decision (guessed_before p i j).
Proof. unfold guessed_before. apply _. Defined.

(** Modelled from the spec: the symbol indices sorted by probability,
    descending. *)
Definition guess_order (p : list Qc) : list nat :=
  merge_sort (guessed_before p) (seq 0 (length p)).

(** Modelled from the spec: the 1-based position of the true label in
    the guess order. *)
Definition rank (p : list Qc) (t : nat) : option nat :=
  (λ found, S found.1) <$> list_find (λ i, i = t) (guess_order p).

(** Modelled from the spec: [avg_steps(labels, y_pred)] of nvtools is
    imported by the script and missing from the sources. Lengths that
    differ, an empty sequence, a negative entry and a label that is no
    index of its distribution are input-validation failures; else the
    result is the mean of the ranks of the true labels. *)
Definition avg_steps (trueLabels : list nat)
    (predictedDistributions : list (list Qc)) : result Qc :=
  if decide (length trueLabels ≠ length predictedDistributions)
  then Raise InputValidationError
  else if decide (trueLabels = []) then Raise InputValidationError
  else if decide (Forall (Forall (λ v, 0 ≤ v)%Qc) predictedDistributions)
  then
    ranks ← mapR (λ tp, of_option InputValidationError (rank tp.2 tp.1))
              (zip trueLabels predictedDistributions);
    Ok (Qc_of_nat (sum_list ranks) / Qc_of_nat (length trueLabels))%Qc
  else Raise InputValidationError.
End Nvtools.

(** ** nv/example_simple.py: the bigram predictions, lines 171 to 218 *)

Module Script.
Local Open Scope nat_scope.

(** [gg[:, c]], which raises when [c] is no column of [gg] *)
Definition column (gg : list (list Z)) (c : nat) : result (list Z) :=
  mapR (λ row, of_option IndexError (row !! c)) gg.

(** [np.vstack((row, rows))] for a matrix [rows] of the given width,
    which raises when [row] has another length; the integer rows become
    floats. *)
Definition vstack (row : list Qc) (width : nat) (rows : list (list Z))
    : result (list (list Qc)) :=
  if decide (length row = width)
  then Ok (row :: ((λ r : list Z, Qc_of_Z <$> r) <$> rows))
  else Raise ValueError.

(** [np.vstack((prob, gg[:, labelsX[:-1]].T))]: the class probabilities,
    then for each label but the last the column of [gg] of that label;
    a column has one entry per row of [gg]. *)
Definition y_pred2 (prob : list Qc) (gg : list (list Z))
    (labelsX : list nat) : result (list (list Qc)) :=
  mapR (column gg) (take (length labelsX - 1) labelsX)
    ≫= vstack prob (length gg).

(** The names the script binds at top level. *)
Record globals : Type := Globals {
  g_labels : list Z;
  g_alphabet : list Z;
  g_chars : list Z;
  g_char_indices : gmap Z nat;
  g_labelsX : list nat;
  g_bc : list nat;
  g_prob : list Qc;
  g_gg : list (list Z)
}.

(** Lines 176 to 183: [chars], [char_indices], [labelsX], [bc], [prob] *)
Definition estimate_class_prob (g : globals) : result globals :=
  let cs := NV.chars (g_labels g) in
  let ci := NV.char_indices cs in
  lx ← NV.labelsX ci (g_labels g);
  let bc := Np.bincount lx in
  Ok {| g_labels := g_labels g; g_alphabet := g_alphabet g;
        g_chars := cs; g_char_indices := ci; g_labelsX := lx;
        g_bc := bc; g_prob := Np.true_divide bc (Np.sum bc);
        g_gg := g_gg g |}.

(** Lines 171 to 173 and 192: [alphabet = encoder.classes_], the sorted
    distinct labels, and [gg = two_grams(alphabet, labels)] *)
Definition estimate_two_grams (g : globals) : result globals :=
  let alphabet := NV.chars (g_labels g) in
  gg ← Nvtools.two_grams alphabet (g_labels g);
  Ok {| g_labels := g_labels g; g_alphabet := alphabet;
        g_chars := g_chars g; g_char_indices := g_char_indices g;
        g_labelsX := g_labelsX g; g_bc := g_bc g; g_prob := g_prob g;
        g_gg := gg |}.

(** The top level before line 171: only [labels] is bound. *)
Definition start (labels : list Z) : globals :=
  {| g_labels := labels; g_alphabet := []; g_chars := [];
     g_char_indices := ∅; g_labelsX := []; g_bc := []; g_prob := [];
     g_gg := [] |}.

(** Lines 171 to 192 from the labels on. *)
Definition run (labels : list Z) : result globals :=
  estimate_class_prob (start labels) ≫= estimate_two_grams.

(** Lines 210 and 218: [av2 = avg_steps(labelsX, y_pred2)] *)
Definition av2 (g : globals) : result Qc :=
  yp ← y_pred2 (g_prob g) (g_gg g) (g_labelsX g);
  Nvtools.avg_steps (g_labelsX g) yp.
End Script.

(** * Vocabulary of the claims *)

(** The most recent label equal to [a] or [b] among the positions 1 to
    [i], or 0 when there is none. *)
Definition most_recent (a b : Z) (labels : list Z) (i : nat) : Z :=
  default 0%Z
    (last (filter (λ l, l = a ∨ l = b) (drop 1 (take (S i) labels)))).

(** The tracking loop restricted to one of its two arrays. *)
Definition track_one (a b : Z) (arr : list Z) (iil : nat * Z) : list Z :=
  if decide (iil.1 = 0%nat) then arr else NV.track a b arr iil.1 iil.2.

(** The values 0 to 3. *)
Definition two_bit (v : Z) : Prop := v ∈ [0; 1; 2; 3]%Z.

(** The state of [generate_double2lvl] after [m] iterations of its loop. *)
Definition flips (p : Qc) (N : nat) (g : NV.rng) (m : nat)
    : list Z * NV.rng :=
  foldl (NV.flip_body p) (Np.zeros 0%Z N, g) (seq 0 m).

(** How often [nxt] follows [cur] in the sequence. *)
Definition transitions (cur nxt : Z) (sequence : list Z) : nat :=
  occurrences (cur, nxt) (zip sequence (tail sequence)).

(** [gg[r, c]] *)
Definition entry (gg : list (list Z)) (r c : nat) : option Z :=
  gg !! r ≫= (.!! c).

(** Modelled from the spec: the tolerance within which a distribution
    sums to one, the specification's [1e-9]. *)
Definition tolerance : Qc := (Qc_of_Z 1 / Qc_of_Z 1000000000)%Qc.

(** Modelled from the spec: a distribution is a non-negative vector that
    sums to one within the tolerance. *)
Definition distribution (p : list Qc) : Prop :=
  Forall (λ v, 0 ≤ v)%Qc p ∧
  (1 - tolerance ≤ Qc_sum p ≤ 1 + tolerance)%Qc.

(** The reading of C4: a column divided by its sum. *)
Definition normalized (col : list Z) : list Qc :=
  (λ v, Qc_of_Z v / Qc_of_Z (foldr Z.add 0%Z col))%Qc <$> col.

(** * The helpers around the measurements *)

(** ** Exceptions besides those of [error] *)

Inductive exception : Type :=
| ZeroDivisionError
| UnboundLocalError
| Builtin (e : error).

Inductive outcome (A : Type) : Type :=
| Return (a : A)
| Throw (e : exception).
Arguments Return {A} a.
Arguments Throw {A} e.

(** [np.tile(row, (n, 1))] *)
Definition tile {A} (row : list A) (n : nat) : list (list A) :=
  replicate n row.

(** [mask.nonzero()[0]]: the positions at which a boolean array holds
    [True], in increasing order. *)
Definition nonzero (mask : list bool) : list nat :=
  (filter (λ ib, ib.2 = true) (enumerate mask)).*1.

(** ** qtt/tools.py: [resetgates], lines 67 to 94 *)

Module Gates.

(** What [print] writes: the header line or the line of one gate. *)
Inductive line : Type :=
| Header
| Setting (g : string) (val : Qc).

(** The instrument and the terminal: the value last set for each gate and
    the lines printed so far. *)
Record world : Type := World {
  values : gmap string Qc;
  stdout : list line
}.

(** [print(...)] *)
Definition print (l : line) (w : world) : world :=
  {| values := values w; stdout := stdout w ++ [l] |}.

(** [gates.set(g, val)]: the instrument keeps the value set for [g]. *)
Definition set (g : string) (val : Qc) (w : world) : world :=
  {| values := <[g := val]> (values w); stdout := stdout w |}.

(** The value chosen for gate [g]: 0 without [basevalues] or when [g] is
    no key of it, else [basevalues[g]]. *)
Definition base (basevalues : option (gmap string Qc)) (g : string) : Qc :=
  match basevalues with
  | None => 0%Qc
  | Some bv =>
      match bv !! g with
      | Some val => val
      | None => 0%Qc
      end
  end.

(** The body of the loop over [activegates]. *)
Definition resetgates_body (basevalues : option (gmap string Qc))
    (verbose : Z) (w : world) (g : string) : world :=
  let val := base basevalues g in
  let w := if decide (2 ≤ verbose)%Z then print (Setting g val) w else w in
  set g val w.

Definition resetgates (activegates : list string)
    (basevalues : option (gmap string Qc)) (verbose : Z) (gates : world)
    : world :=
  let w := if decide (verbose ≠ 0%Z) then print Header gates else gates in
  foldl (resetgates_body basevalues verbose) w activegates.
End Gates.

(** ** qtt/tools.py: [plot_parameter], lines 27 to 36 *)

Module Plot.

(** The two dictionaries of a data set that [plot_parameter] reads;
    [arrays] lists its items in iteration order. *)
Record DataSet : Type := Build_DataSet {
  metadata : gmap string string;
  arrays : list (string * list Qc)
}.

(** [None] stands for Python's [None], returned when [next] raises
    [StopIteration] on an empty [arrays]. *)
Definition plot_parameter (data : DataSet) (default_parameter : string)
    : option string :=
  match metadata data !! "main_parameter" with
  | Some main => Some main
  | None =>
      if decide (default_parameter ∈ (arrays data).*1)
      then Some default_parameter
      else head (arrays data).*1
  end.
End Plot.

(** ** qtt/tools.py: [tilefigs], lines 169 to 231 *)

Module Tile.

(** A monitor area [[x, y, width, height]] *)
Record area : Type := Area {
  ax : Z;
  ay : Z;
  awidth : Z;
  aheight : Z
}.

(** The geometry computed for one figure window; the calls of the window
    manager that receive it are outside the model. *)
Record window : Type := Window {
  fignum : Z;
  win_x : Qc;
  win_y : Qc;
  win_w : Qc;
  win_h : Qc
}.

(** The column and the row of the cell of the figure at position [ii]:
    [iim = ii % np.prod(geometry)], [ix = iim % geometry[0]],
    [iy = np.floor(float(iim) / geometry[0])]. *)
Definition cell (geometry : nat * nat) (ii : nat) : nat * nat :=
  let iim := ii `mod` (geometry.1 * geometry.2) in
  (iim `mod` geometry.1, iim `div` geometry.1).

(** [if ww is None: ww = monitorSizes()[tilefigs.monitorindex]] with the
    static [monitorindex = -1]: the last monitor. *)
Definition the_area (monitors : list area) (ww : option area)
    : outcome area :=
  match ww with
  | Some a => Return a
  | None =>
      match last monitors with
      | Some a => Return a
      | None => Throw (Builtin IndexError)
      end
  end.

(** The loop body for an existing figure. *)
Definition place (a : area) (w h : Qc) (geometry : nat * nat)
    (ii : nat) (f : Z) : window :=
  let '(ix, iy) := cell geometry ii in
  {| fignum := f;
     win_x := (Qc_of_Z (ax a) + Qc_of_nat ix * w)%Qc;
     win_y := (Qc_of_Z (ay a) + Qc_of_nat iy * h)%Qc;
     win_w := w;
     win_h := h |}.

(** [tilefigs(lst, geometry, ww)]: [lst] is one figure number or a list of
    them, [fignum_exists] is [plt.fignum_exists]; a figure that does not
    exist takes the [continue]. *)
Definition tilefigs (monitors : list area) (fignum_exists : Z → bool)
    (lst : Z + list Z) (geometry : nat * nat) (ww : option area)
    : outcome (list window) :=
  match the_area monitors ww with
  | Throw e => Throw e
  | Return a =>
      if decide (geometry.1 = 0%nat) then Throw ZeroDivisionError
      else if decide (geometry.2 = 0%nat) then Throw ZeroDivisionError
      else
        let w := (Qc_of_Z (awidth a) / Qc_of_nat geometry.1)%Qc in
        let h := (Qc_of_Z (aheight a) / Qc_of_nat geometry.2)%Qc in
        let lst := match lst with inl f => [f] | inr l => l end in
        Return
          (omap (λ iif, if fignum_exists iif.2 : bool
                        then Some (place a w h geometry iif.1 iif.2)
                        else None)
             (enumerate lst))
  end.
End Tile.

(** ** qtt/tools.py: [cutoffFilter], lines 363 to 379 *)

Module Filter.
Section cutoff.
(** [np.sin] and [np.pi] are taken as given, and [omega] as non-zero:
    numpy's division by zero gives [inf] or [nan], which [Qc] lacks. *)
Variable sin : Qc → Qc.
Variable pi : Qc.

(** [y[mask] = v] for a boolean mask over [x] *)
Definition assign_where (mask : Qc → bool) (x : list Qc) (v : Qc)
    (y : list Qc) : list Qc :=
  zip_with (λ xi yi, if mask xi then v else yi) x y.

Definition cutoffFilter (x : list Qc) (thr omega : Qc) : list Qc :=
  let y := (λ xi, 1 / 2 * (1 - sin (pi * (xi - thr) / (2 * omega))))%Qc
             <$> x in
  let y := assign_where (λ xi, bool_decide (xi < thr - omega)%Qc) x 1%Qc y in
  assign_where (λ xi, bool_decide (thr + omega < xi)%Qc) x 0%Qc y.
End cutoff.
End Filter.

(** ** examples/1dot_script_batch.py *)

Module Batch.

(** A one-dot as the script reads it: [od['name']] and [od['gates']]. *)
Record dot : Type := Dot {
  name : string;
  gates : list string
}.

(** Line 145: [sdgates = qtt.flatten([s['gates'] for s in sddots])] *)
Definition sdgates (sddots : list dot) : list string :=
  Tools.flatten (gates <$> sddots).

(** Line 146 *)
Definition activegates (one_dots sddots : list dot) : list string :=
  ["T"] ++ Tools.flatten (gates <$> one_dots) ++ sdgates sddots.

(** Lines 148 to 185: zero for every active gate, then the six gates of
    the sensing dots ([-150] when [b], else 0), then [Pbias] for the four
    plungers. *)
Definition basevalues (activegates : list string) (b : bool)
    : gmap string Qc :=
  let basevalues := foldl (λ bv g, <[g := 0%Qc]> bv) ∅ activegates in
  let sd := if b then Qc_of_Z (-150) else 0%Qc in
  let basevalues :=
    foldl (λ bv g, <[g := sd]> bv) basevalues
      ["SD1a"; "SD1b"; "SD1c"; "SD2a"; "SD2b"; "SD2c"] in
  let Pbias := Qc_of_Z (-80) in
  foldl (λ bv g, <[g := Pbias]> bv) basevalues ["P1"; "P2"; "P3"; "P4"].

(** Lines 330 and 331: the two resets that initialise the gates, with the
    default [verbose=2]. *)
Definition initialize (one_dots sddots : list dot) (b : bool)
    (w : Gates.world) : Gates.world :=
  let ag := activegates one_dots sddots in
  let bv := basevalues ag b in
  let w := Gates.resetgates ag (Some bv) 2 w in
  Gates.resetgates (sdgates sddots) (Some bv) 2 w.

(** A one-dot as [onedotScan] reads it. *)
Record onedot : Type := Onedot {
  od_gates : list string;
  od_instrument : Z;
  od_pinchvalues : list Qc
}.

(** [stepdata] and [sweepdata]: the gates, [start], [end] and [step]. *)
Record sweep : Type := Sweep {
  sw_gates : list string;
  sw_start : Qc;
  sw_end : Qc;
  sw_step : Z
}.

Record scanjob : Type := Scanjob {
  stepdata : sweep;
  sweepdata : sweep;
  keithleyidx : list Z
}.

(** [np.minimum(a, b)] *)
Definition minimum (a b : Qc) : Qc := if decide (a ≤ b)%Qc then a else b.

(** [onedotScan], lines 249 to 269: the plunger is set and the scan job
    is built; [gates] holds the value last set for each gate and [full] is
    the global the function reads. The [print] before and the calls that
    follow, [scan2D] and [onedotGetBalance], are outside the model. *)
Definition onedotScan_scanjob (full : Z) (od : onedot)
    (basevalues : gmap string Qc) (gates : gmap string Qc)
    : result (gmap string Qc * scanjob) :=
  let gg := od_gates od in
  let keithleyidx := [od_instrument od] in
  g1 ← of_option IndexError (gg !! 1%nat);
  plunger ← of_option KeyError (basevalues !! g1);
  let gates := <[g1 := (plunger - 0)%Qc]> gates in
  p0 ← of_option IndexError (od_pinchvalues od !! 0%nat);
  let pv1 := (p0 + 0)%Qc in
  p2 ← of_option IndexError (od_pinchvalues od !! 2%nat);
  let pv2 := (p2 + 0)%Qc in
  let stepstart := minimum (p0 + Qc_of_Z 400) (Qc_of_Z 90) in
  let sweepstart := minimum (p2 + Qc_of_Z 300) (Qc_of_Z 90) in
  g0 ← of_option IndexError (gg !! 0%nat);
  g2 ← of_option IndexError (gg !! 2%nat);
  let step := if decide (full = 0%Z) then (-12)%Z else (-6)%Z in
  Ok (gates,
      {| stepdata := {| sw_gates := [g0]; sw_start := stepstart;
                        sw_end := (pv1 - Qc_of_Z 10)%Qc;
                        sw_step := step |};
         sweepdata := {| sw_gates := [g2]; sw_start := sweepstart;
                         sw_end := (pv2 - Qc_of_Z 10)%Qc;
                         sw_step := step |};
         keithleyidx := keithleyidx |}).

(** [getSDval(T, gg=None)], lines 204 to 214: [sdval] is local and only
    bound when [gg] is given, so the last [return] finds it unbound. *)
Definition getSDval (T : Qc) (gg : option (list string))
    : outcome (list Z) :=
  match gg with
  | Some gg =>
      match gg !! 1%nat with
      | None => Throw (Builtin IndexError)
      | Some g1 =>
          if decide (g1 = "SD2b")
          then Return [-324; -450; -290]%Z
          else Return [-320; -500; -500]%Z
      end
  | None => Throw UnboundLocalError
  end.

(** Line 220: [ggsd = ['SD%d%s' % (sdid, c) for c in ['a','b','c']]] *)
Definition ggsd (sdid : Z) : list string :=
  (λ c, "SD" +:+ pretty sdid +:+ c) <$> ["a"; "b"; "c"].
End Batch.

(** ** nv/example_simple.py: [plotI] and the masked predictions *)

Module NVmore.
Local Open Scope nat_scope.

(** [plotI(labels, i)], lines 91 to 94: the returned [idx]; the call of
    [plt.plot] that draws it is outside the model. *)
Definition plotI (labels : list Z) (i : Z) : list nat :=
  nonzero ((λ l, bool_decide (l = i)) <$> labels).

(** [y[rows, col] = 0] for an index array [rows]; numpy raises when a row
    or the column is out of bounds. *)
Definition zero_at (rows : list nat) (col : nat) (y : list (list Qc))
    : result (list (list Qc)) :=
  if decide (Forall (λ r, r < length y) rows ∧
             (rows ≠ [] → Forall (λ row, col < length row) y))
  then Ok (foldl (λ y r, alter (<[col := 0%Qc]>) r y) y rows)
  else Raise IndexError.

(** One of the lines 138 to 141:
    [y_pred[(tracked[:-1] == a).nonzero()[0] + 1, char_map[a]] = 0] *)
Definition mask_after (tracked : list Z) (a : Z) (char_map : gmap Z nat)
    (y_pred : list (list Qc)) : result (list (list Qc)) :=
  col ← of_option KeyError (char_map !! a);
  zero_at
    (S <$> nonzero ((λ v, bool_decide (v = a))
                      <$> take (length tracked - 1) tracked))
    col y_pred.

(** [encoder.transform(y)] for the [LabelEncoder] fitted at line 74,
    whose [classes_] are [chars], the sorted distinct labels: the position
    of each value among the classes, [ValueError] for a value that is
    none of them. *)
Definition transform (chars : list Z) (y : list Z) : result (list nat) :=
  mapR (λ c, of_option ValueError (NV.char_indices chars !! c)) y.
Arguments transform : simpl never.

(** Lines 73 to 82 and 119 to 141: the encoded labels [lx], the encoding
    of the six values of line 78, [char_map], [prob], the two tracking
    arrays, and [y_pred] with the class of the most recent 1 or 2 and the
    class of the most recent 3 or 4 set to zero. The prints and the calls
    of [avg_steps] between them are outside the model. *)
Definition y_pred (labels : list Z) : result (list (list Qc)) :=
  let chars := NV.chars labels in
  lx ← transform chars labels;
  char_indices ← transform chars [-1; 0; 1; 2; 3; 4]%Z;
  let char_map := NV.char_indices chars in
  let prob := NV.prob lx in
  let y0 := tile prob (length labels) in
  y1 ← mask_after (NV.onetwo labels) 1 char_map y0;
  y2 ← mask_after (NV.onetwo labels) 2 char_map y1;
  y3 ← mask_after (NV.threefour labels) 3 char_map y2;
  mask_after (NV.threefour labels) 4 char_map y3.
End NVmore.

(** ** Vocabulary of the properties below *)

(** How many of the first [m] draws from [g] are at most [p]: the flips
    of system A. *)
Definition a_flips (p : Qc) (g : NV.rng) (m : nat) : nat :=
  length (filter (λ i, (NV.samples g (NV.drawn g + i) ≤ p)%Qc) (seq 0 m)).

(** The rows that one of the lines 138 to 141 sets to zero in a column. *)
Definition masked_rows (tracked : list Z) (a : Z) : list nat :=
  S <$> nonzero ((λ v, bool_decide (v = a))
                   <$> take (length tracked - 1) tracked).

(** [y] has [N] rows of [k] entries. *)
Definition shape (N k : nat) (y : list (list Qc)) : Prop :=
  length y = N ∧ Forall (λ row, length row = k) y.

(** The state of two two-level systems after [a] flips of the first and
    [b] flips of the second: bit 0 and bit 1. *)
Definition two_level (a b : nat) : Z :=
  (Z.b2z (Nat.odd a) + 2 * Z.b2z (Nat.odd b))%Z.

(** * Properties *)

(** ** The label-tracking loop *)

Section tracking.
Local Open Scope nat_scope.
Variables a b : Z.

Lemma most_recent_0 labels : most_recent a b labels 0 = 0%Z.
Proof. unfold most_recent. by destruct labels as [|l0 [|l1 ls]]. Qed.

Lemma most_recent_S labels j l :
  labels !! S j = Some l →
  most_recent a b labels (S j) =
    if decide (l = a ∨ l = b) then l else most_recent a b labels j.
Proof.
  intros Hl. unfold most_recent.
  rewrite (take_S_r _ _ _ Hl).
  assert (S j ≤ length labels)
    by (apply lookup_lt_Some in Hl; lia).
  rewrite drop_app_le by (rewrite length_take; lia).
  rewrite filter_app, filter_cons, filter_nil.
  case_decide.
  - by rewrite last_snoc.
  - by rewrite app_nil_r.
Qed.

(** The invariant of the loop after [m] iterations: the positions below
    [m] hold the most recent label, the others are still zero. *)
Lemma track_one_invariant labels m :
  m ≤ length labels →
  let arr := foldl (track_one a b) (Np.zeros 0%Z (length labels))
               (take m (enumerate labels)) in
  length arr = length labels ∧
  (∀ i, i < m → arr !! i = Some (most_recent a b labels i)) ∧
  (∀ i, m ≤ i → i < length labels → arr !! i = Some 0%Z).
Proof.
  induction m as [|m IH]; intros Hm; simpl.
  - unfold Np.zeros. rewrite length_replicate.
    split_and!; [done|lia|].
    intros i _ Hi. by apply lookup_replicate_2.
  - destruct (lookup_lt_is_Some_2 labels m) as [l Hl]; [lia|].
    assert (enumerate labels !! m = Some (m, l)) as Hen
      by (unfold enumerate; by rewrite list_lookup_imap, Hl).
    rewrite (take_S_r _ _ _ Hen), foldl_app; simpl.
    destruct IH as (Hlen & Hlow & Hhigh); [lia|].
    set (arr := foldl (track_one a b) _ _) in *.
    destruct m as [|m'].
    { unfold track_one; simpl.
      split_and!; [done| |intros; apply Hhigh; lia].
      intros i Hi. assert (i = 0) as -> by lia.
      rewrite most_recent_0. apply Hhigh; lia. }
    assert (track_one a b arr (S m', l) =
            <[S m' := most_recent a b labels (S m')]> arr) as ->.
    { rewrite (most_recent_S _ _ _ Hl). unfold track_one, NV.track; simpl.
      rewrite Nat.sub_0_r.
      assert (arr !!! m' = most_recent a b labels m') as ->
        by (apply list_lookup_total_correct, Hlow; lia).
      repeat case_decide; subst; intuition congruence. }
    rewrite length_insert. split_and!; [done| |].
    + intros i Hi. destruct (decide (i = S m')) as [->|].
      * apply list_lookup_insert_eq. lia.
      * rewrite list_lookup_insert_ne by done. apply Hlow. lia.
    + intros i Hi1 Hi2. rewrite list_lookup_insert_ne by lia.
      apply Hhigh; lia.
Qed.

Lemma track_one_lookup labels i :
  i < length labels →
  foldl (track_one a b) (Np.zeros 0%Z (length labels)) (enumerate labels) !! i
    = Some (most_recent a b labels i).
Proof.
  intros Hi.
  destruct (track_one_invariant labels (length labels)) as (_ & H & _);
    [done|].
  rewrite firstn_all2 in H
    by (unfold enumerate; by rewrite length_imap).
  by apply H.
Qed.

Lemma track_one_length labels :
  length (foldl (track_one a b) (Np.zeros 0%Z (length labels)) (enumerate labels))
    = length labels.
Proof.
  destruct (track_one_invariant labels (length labels)) as (H & _ & _);
    [done|].
  by rewrite firstn_all2 in H
    by (unfold enumerate; by rewrite length_imap).
Qed.

Lemma most_recent_first l0 l0' rest i :
  most_recent a b (l0 :: rest) i = most_recent a b (l0' :: rest) i.
Proof. done. Qed.
End tracking.

Lemma track_loop_split es o t :
  foldl NV.track_body (o, t) es
    = (foldl (track_one 1 2) o es, foldl (track_one 3 4) t es).
Proof.
  revert o t. induction es as [|[ii l] es IH]; intros o t; [done|].
  simpl. unfold track_one at 2 4; simpl.
  case_decide; by rewrite IH.
Qed.

Lemma onetwo_lookup labels i :
  (i < length labels)%nat →
  NV.onetwo labels !! i = Some (most_recent 1 2 labels i).
Proof.
  intros. unfold NV.onetwo, NV.track_loop. rewrite track_loop_split.
  by apply track_one_lookup.
Qed.

Lemma threefour_lookup labels i :
  (i < length labels)%nat →
  NV.threefour labels !! i = Some (most_recent 3 4 labels i).
Proof.
  intros. unfold NV.threefour, NV.track_loop. rewrite track_loop_split.
  by apply track_one_lookup.
Qed.

Lemma tracked_first_label a b l0 l0' rest :
  foldl (track_one a b) (Np.zeros 0%Z (length (l0 :: rest)))
    (enumerate (l0 :: rest))
  = foldl (track_one a b) (Np.zeros 0%Z (length (l0' :: rest)))
      (enumerate (l0' :: rest)).
Proof.
  apply list_eq_same_length with (S (length rest)).
  - apply track_one_length.
  - apply track_one_length.
  - intros i x y Hi.
    rewrite !track_one_lookup by (simpl; lia).
    rewrite (most_recent_first a b l0 l0'). congruence.
Qed.

(** ** The double two-level generator *)

Section generator.
Local Open Scope nat_scope.
Variable p : Qc.

Lemma two_bit_flip v c : two_bit v → c = 1%Z ∨ c = 2%Z → two_bit (Z.lxor v c).
Proof.
  unfold two_bit. rewrite !elem_of_cons, elem_of_nil.
  intros Hv Hc. destruct Hc as [->| ->];
    destruct Hv as [->|[->|[->|[->|[]]]]]; simpl; tauto.
Qed.

Lemma flip_body_shape x g ii :
  ∃ c, (c = 1%Z ∨ c = 2%Z) ∧
    (NV.flip_body p (x, g) ii).1 = <[ii + 1 := Z.lxor (x !!! ii) c]> x.
Proof.
  unfold NV.flip_body; simpl. case_decide; simpl; eauto.
Qed.

Local Arguments NV.flip_body : simpl never.

Lemma flips_invariant N g m :
  m < N →
  let x := (flips p N g m).1 in
  length x = N ∧
  x !! 0 = Some 0%Z ∧
  (∀ i v, i ≤ m → x !! i = Some v → two_bit v) ∧
  (∀ i, i < m → ∃ v w, x !! i = Some v ∧ x !! S i = Some w ∧
      (w = Z.lxor v 1 ∨ w = Z.lxor v 2)) ∧
  (∀ i, m < i → i < N → x !! i = Some 0%Z).
Proof.
  induction m as [|m IH]; intros Hm; simpl.
  - unfold Np.zeros. rewrite length_replicate. split_and!; [done| | |lia|].
    + apply lookup_replicate_2. lia.
    + intros i v Hi [-> _]%lookup_replicate.
      unfold two_bit. set_solver.
    + intros i _ Hi. by apply lookup_replicate_2.
  - destruct IH as (Hlen & H0 & Hbits & Hsteps & Hzero); [lia|].
    unfold flips in *. rewrite seq_S, foldl_app; simpl.
    destruct (foldl (NV.flip_body p) _ (seq 0 m)) as [x g'] eqn:Hx.
    simpl in *.
    destruct (flip_body_shape x g' m) as (c & Hc & ->).
    replace (m + 1) with (S m) by lia.
    destruct (lookup_lt_is_Some_2 x m) as [v Hv]; [lia|].
    rewrite (list_lookup_total_correct _ _ _ Hv).
    rewrite length_insert. split_and!; [done| | | |].
    + by rewrite list_lookup_insert_ne by lia.
    + intros i w Hi Hw. destruct (decide (i = S m)) as [->|].
      * rewrite list_lookup_insert_eq in Hw by lia.
        injection Hw as <-. apply two_bit_flip; [|done].
        by apply (Hbits m).
      * rewrite list_lookup_insert_ne in Hw by done.
        apply (Hbits i); [lia|done].
    + intros i Hi. destruct (decide (i = m)) as [->|].
      * exists v, (Z.lxor v c).
        rewrite list_lookup_insert_ne by lia.
        rewrite list_lookup_insert_eq by lia.
        split_and!; [done|done|]. destruct Hc as [->| ->]; auto.
      * destruct (Hsteps i) as (v' & w' & ? & ? & ?); [lia|].
        exists v', w'. by rewrite !list_lookup_insert_ne by lia.
    + intros i Hi1 Hi2. rewrite list_lookup_insert_ne by lia.
      apply Hzero; lia.
Qed.
End generator.

(** ** Rational arithmetic used below *)

Section rationals.
Local Open Scope Qc_scope.


Lemma Qc_of_nat_nonneg n : 0 ≤ Qc_of_nat n.
Proof.
  unfold Qc_of_nat. rewrite <-Z2Qc_inj_0.
  apply (proj1 (Z2Qc_inj_le _ _)). lia.
Qed.

Lemma Qc_of_nat_pos n : (0 < n)%nat → 0 < Qc_of_nat n.
Proof.
  intros. unfold Qc_of_nat. rewrite <-Z2Qc_inj_0.
  apply (proj1 (Z2Qc_inj_lt _ _)). lia.
Qed.

Lemma Qc_of_nat_le n m : (n ≤ m)%nat → Qc_of_nat n ≤ Qc_of_nat m.
Proof. intros. unfold Qc_of_nat. apply (proj1 (Z2Qc_inj_le _ _)). lia. Qed.



Lemma Qcdiv_self x : x ≠ 0 → x / x = 1.
Proof. intros. unfold Qcdiv. by apply Qcmult_inv_r. Qed.


(** [lo * d ≤ n ≤ hi * d] bounds the quotient [n / d]. *)
Lemma Qcdiv_between lo hi n d :
  0 < d → lo * d ≤ n → n ≤ hi * d → lo ≤ n / d ≤ hi.
Proof.
  intros Hd Hlo Hhi. pose proof (Qcinv_pos _ Hd) as Hinv.
  assert (d ≠ 0) as Hne by (intros ->; by apply (Qclt_not_eq 0 0)).
  unfold Qcdiv. split.
  - apply (Qcmult_le_mono_pos_r _ _ (/ d)) in Hlo; [|done].
    by rewrite <-Qcmult_assoc, Qcmult_inv_r, Qcmult_1_r in Hlo.
  - apply (Qcmult_le_mono_pos_r _ _ (/ d)) in Hhi; [|done].
    by rewrite <-(Qcmult_assoc hi), Qcmult_inv_r, Qcmult_1_r in Hhi.
Qed.

Lemma Qc_sum_nonneg l : Forall (λ v, 0 ≤ v) l → 0 ≤ Qc_sum l.
Proof.
  induction 1 as [|x l Hx _ IH]; simpl; [done|].
  by apply Qcplus_nonneg_nonneg.
Qed.

End rationals.

(** ** The encoding of the labels *)

Section encoding.
Local Open Scope nat_scope.

Lemma chars_NoDup labels : NoDup (NV.chars labels).
Proof.
  unfold NV.chars. rewrite merge_sort_Permutation. apply NoDup_elements.
Qed.

Lemma elem_of_chars labels c : c ∈ NV.chars labels ↔ c ∈ labels.
Proof.
  unfold NV.chars.
  by rewrite merge_sort_Permutation, elem_of_elements, elem_of_list_to_set.
Qed.

Lemma chars_sorted labels : Sorted Z.le (NV.chars labels).
Proof. apply (Sorted_merge_sort Z.le). Qed.

Lemma char_indices_snoc cs c :
  NV.char_indices (cs ++ [c]) = <[c := length cs]> (NV.char_indices cs).
Proof.
  unfold NV.char_indices, enumerate.
  rewrite imap_app, foldl_app; simpl. by rewrite Nat.add_0_r.
Qed.

(** The dictionary sends a symbol to its position in [chars]. *)
Lemma char_indices_lookup cs c i :
  NoDup cs → NV.char_indices cs !! c = Some i ↔ cs !! i = Some c.
Proof.
  induction cs as [|x cs IH] using rev_ind; intros Hnd.
  - unfold NV.char_indices; simpl. by rewrite lookup_empty, lookup_nil.
  - apply NoDup_app in Hnd as (Hnd & Hx & _).
    rewrite char_indices_snoc, lookup_insert, lookup_snoc_Some.
    case_decide as Hc.
    + subst x. split.
      * intros [= <-]. by right.
      * intros [[_ Hin]|[-> _]]; [|done].
        exfalso. apply (Hx c); [by eapply list_elem_of_lookup_2|].
        constructor.
    + rewrite IH by done. split.
      * intros Hi. left. split; [|done]. by eapply lookup_lt_Some.
      * intros [[_ ?]|[_ ?]]; [done|congruence].
Qed.

Lemma labelsX_ok cs labels :
  NoDup cs → (∀ c, c ∈ labels → c ∈ cs) →
  ∃ lx, NV.labelsX (NV.char_indices cs) labels = Ok lx ∧
        Forall2 (λ c i, cs !! i = Some c) labels lx.
Proof.
  intros Hnd. induction labels as [|c labels IH]; intros Hin.
  - exists []. by split.
  - destruct IH as (lx & Hlx & Hall); [set_solver|].
    destruct (proj1 (list_elem_of_lookup cs c)) as [i Hi]; [set_solver|].
    exists (i :: lx). unfold NV.labelsX in *; simpl.
    rewrite (proj2 (char_indices_lookup cs c i Hnd) Hi); simpl.
    rewrite Hlx; simpl. split; [done|]. by constructor.
Qed.


Lemma encoded_bound (cs labels : list Z) lx :
  Forall2 (λ c i, cs !! i = Some c) labels lx →
  Forall (λ i, i < length cs) lx.
Proof.
  induction 1 as [|c i labels lx Hi _ IH]; constructor; [|done].
  by eapply lookup_lt_Some.
Qed.

Lemma encoded_elem_of (cs labels : list Z) lx c i :
  Forall2 (λ c i, cs !! i = Some c) labels lx →
  NoDup cs → cs !! i = Some c → c ∈ labels → i ∈ lx.
Proof.
  intros Hall Hnd Hi.
  induction Hall as [|c' i' labels lx Hc' _ IH]; [set_solver|].
  rewrite !elem_of_cons. intros [->|Hc]; [|right; by apply IH].
  left. by eapply NoDup_lookup.
Qed.
End encoding.

(** ** [np.bincount] *)

Section bincount.
Local Open Scope nat_scope.

Import Np.

Lemma accumulate_length x out : length (accumulate out x) = length out.
Proof.
  revert out. induction x as [|v x IH]; intros out; [done|].
  change (accumulate out (v :: x)) with (accumulate (alter S v out) x).
  by rewrite IH, length_alter.
Qed.

Lemma accumulate_lookup x out i :
  accumulate out x !! i = (λ n, n + occurrences i x) <$> out !! i.
Proof.
  revert out. induction x as [|v x IH]; intros out.
  - unfold occurrences; simpl. destruct (out !! i); simpl; [|done].
    by rewrite Nat.add_0_r.
  - change (accumulate out (v :: x)) with (accumulate (alter S v out) x).
    rewrite IH, list_lookup_alter. unfold occurrences.
    rewrite filter_cons. repeat case_decide; try congruence.
    subst v. destruct (out !! i); simpl; [|done]. f_equal. lia.
Qed.

Lemma sum_list_alter_S out v :
  v < length out → sum_list (alter S v out) = S (sum_list out).
Proof.
  revert v. induction out as [|n out IH]; intros [|v] Hv; simpl in *;
    try lia.
  change (list_alter S v out) with (alter S v out).
  rewrite IH by lia. lia.
Qed.

Lemma accumulate_sum x out :
  Forall (λ v, v < length out) x →
  sum_list (accumulate out x) = sum_list out + length x.
Proof.
  revert out. induction x as [|v x IH]; intros out Hx; [simpl; lia|].
  apply Forall_cons in Hx as [Hv Hx].
  change (accumulate out (v :: x)) with (accumulate (alter S v out) x).
  rewrite IH by (by rewrite length_alter).
  rewrite sum_list_alter_S by done. simpl. lia.
Qed.

Lemma bincount_length x : x ≠ [] → length (Np.bincount x) = S (max_list x).
Proof.
  destruct x as [|v x]; [done|]. intros _. unfold Np.bincount.
  rewrite accumulate_length. apply length_replicate.
Qed.

Lemma bincount_lookup x i :
  i ≤ max_list x → x ≠ [] → Np.bincount x !! i = Some (occurrences i x).
Proof.
  destruct x as [|v x]; [done|]. intros Hi _. unfold Np.bincount.
  rewrite accumulate_lookup. unfold Np.zeros.
  by rewrite lookup_replicate_2 by lia.
Qed.

Lemma bincount_sum x : sum_list (Np.bincount x) = length x.
Proof.
  destruct x as [|v x]; [done|]. unfold Np.bincount.
  rewrite accumulate_sum.
  - unfold Np.zeros. rewrite sum_list_replicate. lia.
  - unfold Np.zeros. rewrite length_replicate.
    apply Forall_forall. intros n Hn%max_list_elem_of_le. lia.
Qed.
End bincount.

(** ** The class probabilities *)

Section class_probabilities.
Local Open Scope nat_scope.

(** The encoding never raises [KeyError]: every label is in [chars]. *)
Lemma labelsX_chars labels :
  ∃ lx, NV.labelsX (NV.char_indices (NV.chars labels)) labels = Ok lx ∧
        Forall2 (λ c i, NV.chars labels !! i = Some c) labels lx.
Proof.
  apply labelsX_ok; [apply chars_NoDup|].
  intros c. by rewrite elem_of_chars.
Qed.

(** The encoded labels use every index below the number of symbols. *)
Lemma encoded_max labels lx :
  labels ≠ [] →
  Forall2 (λ c i, NV.chars labels !! i = Some c) labels lx →
  S (max_list lx) = length (NV.chars labels).
Proof.
  intros Hne Hall.
  assert (lx ≠ []) as Hlx.
  { intros ->. apply Forall2_length in Hall. by destruct labels. }
  pose proof (max_list_elem_of lx Hlx) as Hmax.
  pose proof (encoded_bound _ _ _ Hall) as Hbound.
  rewrite Forall_forall in Hbound. apply Hbound in Hmax.
  destruct (lookup_lt_is_Some_2 (NV.chars labels)
              (length (NV.chars labels) - 1)) as [c Hc]; [lia|].
  assert (c ∈ labels) as Hin
    by (apply elem_of_chars; by eapply list_elem_of_lookup_2).
  pose proof (encoded_elem_of _ _ _ _ _ Hall (chars_NoDup labels) Hc Hin)
    as Hlast%max_list_elem_of_le.
  lia.
Qed.

Lemma prob_lookup lx i :
  lx ≠ [] → i ≤ max_list lx →
  NV.prob lx !! i
    = Some (Qc_of_nat (occurrences i lx) / Qc_of_nat (length lx))%Qc.
Proof.
  intros Hne Hi. unfold NV.prob, Np.true_divide, Np.sum.
  by rewrite list_lookup_fmap, bincount_lookup, bincount_sum.
Qed.



Lemma prob_length lx : lx ≠ [] → length (NV.prob lx) = S (max_list lx).
Proof.
  intros. unfold NV.prob, Np.true_divide.
  by rewrite length_fmap, bincount_length.
Qed.
End class_probabilities.

(** ** Calls over lists, counting *)

Section result_lists.
Context {A B : Type}.

Lemma mapR_Ok (f : A → result B) l l' :
  mapR f l = Ok l' ↔ Forall2 (λ a b, f a = Ok b) l l'.
Proof.
  revert l'. induction l as [|a l IH]; intros l'; simpl.
  - split; [intros [= <-]; constructor|by inversion 1].
  - destruct (f a) as [b|e] eqn:Hfa; simpl.
    + destruct (mapR f l) as [bs|e] eqn:Hl; simpl.
      * split.
        -- intros [= <-]. constructor; [done|by apply IH].
        -- inversion 1 as [|???? Hb Hbs]; subst.
           apply IH in Hbs. congruence.
      * split; [done|]. inversion 1 as [|???? Hb Hbs]; subst.
        by apply IH in Hbs.
    + split; [done|]. inversion 1; congruence.
Qed.

Lemma mapR_total (f : A → result B) l :
  Forall (λ a, ∃ b, f a = Ok b) l → ∃ l', mapR f l = Ok l'.
Proof.
  induction 1 as [|a l [b Hb] _ [l' IH]]; simpl; [by eexists|].
  rewrite Hb, IH; simpl. by eexists.
Qed.

Context `{EqDecision A, EqDecision B}.

(** Two lists related element by element have as many [x] as [y] when
    the relation pairs [x] with [y] only. *)
Lemma occurrences_Forall2 (R : A → B → Prop) x y l k :
  (∀ a b, R a b → a = x ↔ b = y) →
  Forall2 R l k → occurrences x l = occurrences y k.
Proof.
  intros HR. unfold occurrences.
  induction 1 as [|a b l k Hab _ IH]; [done|].
  rewrite !filter_cons. specialize (HR a b Hab).
  destruct (decide (a = x)), (decide (b = y)); simpl; intuition lia.
Qed.
End result_lists.

Lemma Forall2_right {A B} (R : A → B → Prop) (P : B → Prop) l k :
  (∀ a b, R a b → P b) → Forall2 R l k → Forall P k.
Proof. intros HR. induction 1; constructor; eauto. Qed.

Lemma Forall2_and_right {A B} (R : A → B → Prop) (P : B → Prop) l k :
  Forall2 R l k → Forall P k → Forall2 (λ a b, R a b ∧ P b) l k.
Proof.
  induction 1 as [|a b l k Hab _ IH]; intros Hk; [constructor|].
  apply Forall_cons in Hk as [Hb Hk]. constructor; [done|by apply IH].
Qed.

Lemma Forall2_adjacent {A B} (R : A → B → Prop) l k :
  Forall2 R l k →
  Forall2 (λ p q, R p.1 q.1 ∧ R p.2 q.2) (zip l (tail l)) (zip k (tail k)).
Proof.
  intros Hlk. pose proof (Forall2_tail _ _ _ Hlk) as Htl.
  revert Htl. generalize (tail l) (tail k). clear -Hlk.
  induction Hlk as [|a b l k Hab _ IH]; intros l2 k2 H2; [constructor|].
  destruct H2 as [|a2 b2 l2 k2 Hab2 H2]; simpl; [constructor|].
  constructor; [done|]. by apply IH.
Qed.

(** ** The transition counts *)

Section transitions.
Local Open Scope nat_scope.

Lemma symbol_index_Ok alphabet s i :
  Nvtools.symbol_index alphabet s = Ok i → alphabet !! i = Some s.
Proof.
  unfold Nvtools.symbol_index.
  destruct (list_find _ alphabet) as [[j x]|] eqn:Hfind; simpl; [|done].
  intros [= <-]. apply list_find_Some in Hfind.
  destruct Hfind as (Hl & Hx & _). simpl in Hx. by subst x.
Qed.

Lemma symbol_index_total alphabet s :
  s ∈ alphabet → ∃ i, Nvtools.symbol_index alphabet s = Ok i.
Proof.
  intros Hs. unfold Nvtools.symbol_index.
  destruct (list_find_elem_of (λ a, a = s) alphabet s Hs eq_refl)
    as [[i x] ->].
  by eexists.
Qed.

Lemma increment_entry gg r' c' r c :
  entry (Nvtools.increment gg r' c') r c =
    (if decide (r' = r ∧ c' = c) then Z.succ else id) <$> entry gg r c.
Proof.
  unfold entry, Nvtools.increment. rewrite list_lookup_alter.
  destruct (decide (r' = r)) as [->|Hr].
  - destruct (gg !! r) as [row|]; simpl; [|done].
    rewrite list_lookup_alter. destruct (decide (c' = c)) as [->|Hc].
    + by rewrite decide_True.
    + rewrite decide_False by tauto. by destruct (row !! c).
  - rewrite decide_False by tauto. by destruct (gg !! r ≫= _).
Qed.

Lemma count_pairs_entry pairs gg r c :
  entry (foldl (λ gg cn, Nvtools.increment gg cn.2 cn.1) gg pairs) r c =
    (λ n, n + Z.of_nat (occurrences (c, r) pairs))%Z <$> entry gg r c.
Proof.
  revert gg. induction pairs as [|[c' r'] pairs IH]; intros gg; simpl.
  - unfold occurrences; simpl.
    destruct (entry gg r c); simpl; [|done]. f_equal. lia.
  - rewrite IH, increment_entry. unfold occurrences.
    rewrite filter_cons. simpl.
    destruct (entry gg r c) as [n|]; simpl; [|done]. f_equal.
    destruct (decide (r' = r ∧ c' = c)) as [[-> ->]|Hne].
    + rewrite decide_True by done. simpl. lia.
    + rewrite decide_False by (intros [= -> ->]; tauto). simpl. lia.
Qed.

Lemma count_pairs_length pairs gg :
  length (foldl (λ gg cn, Nvtools.increment gg cn.2 cn.1) gg pairs)
    = length gg.
Proof.
  revert gg. induction pairs as [|cn pairs IH]; intros gg; simpl; [done|].
  rewrite IH. unfold Nvtools.increment. apply length_alter.
Qed.

Lemma count_pairs_rows pairs gg k :
  Forall (λ row, length row = k) gg →
  Forall (λ row, length row = k)
    (foldl (λ gg cn, Nvtools.increment gg cn.2 cn.1) gg pairs).
Proof.
  revert gg. induction pairs as [|cn pairs IH]; intros gg Hgg; simpl;
    [done|].
  apply IH. unfold Nvtools.increment.
  apply Forall_alter; [done|]. intros row _ <-. apply length_alter.
Qed.

Lemma zeros_entry k r c :
  r < k → c < k → entry (Np.zeros (Np.zeros 0%Z k) k) r c = Some 0%Z.
Proof.
  intros. unfold entry, Np.zeros.
  rewrite lookup_replicate_2 by done. simpl.
  by apply lookup_replicate_2.
Qed.
End transitions.

Section two_grams.
Local Open Scope nat_scope.

Lemma two_grams_Ok alphabet sequence gg :
  Nvtools.two_grams alphabet sequence = Ok gg →
  ∃ idx,
    Forall2 (λ s i, Nvtools.symbol_index alphabet s = Ok i) sequence idx ∧
    gg = foldl (λ gg cn, Nvtools.increment gg cn.2 cn.1)
           (Np.zeros (Np.zeros 0%Z (length alphabet)) (length alphabet))
           (zip idx (tail idx)).
Proof.
  unfold Nvtools.two_grams. case_decide; [done|].
  destruct (mapR _ sequence) as [idx|e] eqn:Hidx; simpl; [|done].
  intros [= <-]. exists idx. split; [|done]. by apply mapR_Ok.
Qed.

Lemma two_grams_total alphabet sequence :
  sequence ≠ [] → (∀ s, s ∈ sequence → s ∈ alphabet) →
  ∃ gg, Nvtools.two_grams alphabet sequence = Ok gg.
Proof.
  intros Hne Hin. unfold Nvtools.two_grams. rewrite decide_False by done.
  destruct (mapR_total (Nvtools.symbol_index alphabet) sequence)
    as [idx ->]; [|simpl; by eexists].
  apply Forall_forall. intros s Hs. by apply symbol_index_total, Hin.
Qed.

(** Row [r], column [c] counts how often the symbol of index [r] follows
    the symbol of index [c]. *)
Lemma two_grams_entry alphabet sequence gg cur nxt c r :
  Nvtools.two_grams alphabet sequence = Ok gg →
  Nvtools.symbol_index alphabet cur = Ok c →
  Nvtools.symbol_index alphabet nxt = Ok r →
  entry gg r c = Some (Z.of_nat (transitions cur nxt sequence)).
Proof.
  intros (idx & Hidx & ->)%two_grams_Ok Hc Hr.
  rewrite count_pairs_entry.
  rewrite zeros_entry
    by (eapply lookup_lt_Some; by apply symbol_index_Ok). simpl.
  rewrite Z.add_0_l. do 2 f_equal. symmetry. unfold transitions.
  eapply occurrences_Forall2; [|by apply Forall2_adjacent].
  intros [s1 s2] [i1 i2] [H1 H2]; simpl in *. split.
  - intros [= -> ->]. congruence.
  - intros [= -> ->].
    apply symbol_index_Ok in H1, H2, Hc, Hr. congruence.
Qed.

Lemma two_grams_square alphabet sequence gg :
  Nvtools.two_grams alphabet sequence = Ok gg →
  length gg = length alphabet ∧
  Forall (λ row, length row = length alphabet) gg.
Proof.
  intros (idx & _ & ->)%two_grams_Ok. split.
  - rewrite count_pairs_length. apply length_replicate.
  - apply count_pairs_rows, Forall_replicate, length_replicate.
Qed.

Lemma two_grams_nonneg alphabet sequence gg :
  Nvtools.two_grams alphabet sequence = Ok gg →
  Forall (Forall (λ n, 0 ≤ n)%Z) gg.
Proof.
  intros (idx & _ & ->)%two_grams_Ok.
  generalize (zip idx (tail idx)). intros pairs.
  assert (Forall (Forall (λ n, 0 ≤ n)%Z)
            (Np.zeros (Np.zeros 0%Z (length alphabet)) (length alphabet)))
    as Hzero by (by do 2 apply Forall_replicate).
  revert Hzero. generalize (Np.zeros (Np.zeros 0%Z (length alphabet))
                              (length alphabet)).
  induction pairs as [|cn pairs IH]; intros gg Hgg; simpl; [done|].
  apply IH. unfold Nvtools.increment.
  apply Forall_alter; [done|]. intros row _ Hrow.
  apply Forall_alter; [done|]. intros n _ Hn. lia.
Qed.

(** A column read from [gg] holds the entries of that column. *)
Lemma column_lookup gg c col r :
  Script.column gg c = Ok col → r < length gg → col !! r = entry gg r c.
Proof.
  unfold Script.column. intros Hcol%mapR_Ok Hr.
  destruct (lookup_lt_is_Some_2 gg r Hr) as [row Hrow].
  destruct (Forall2_lookup_l _ _ _ _ _ Hcol Hrow) as (v & Hv & Hrc).
  unfold entry. rewrite Hrow, Hv; simpl.
  destruct (row !! c); simpl in Hrc; congruence.
Qed.

Lemma column_total gg c :
  Forall (λ row, c < length row) gg → ∃ col, Script.column gg c = Ok col.
Proof.
  intros Hgg. apply mapR_total. eapply Forall_impl; [done|].
  intros row [v ->]%lookup_lt_is_Some_2. by eexists.
Qed.

(** The rows of [y_pred2]: [prob], then for each position [i] the column
    of [gg] of the label at [i], as it is. *)
Lemma y_pred2_rows prob gg lx yp :
  Script.y_pred2 prob gg lx = Ok yp →
  yp !! 0 = Some prob ∧
  ∀ i c, S i < length lx → lx !! i = Some c →
    ∃ col, Script.column gg c = Ok col ∧
           yp !! S i = Some (Qc_of_Z <$> col).
Proof.
  unfold Script.y_pred2.
  destruct (mapR _ (take _ lx)) as [cols|e] eqn:Hcols; simpl; [|done].
  unfold Script.vstack. case_decide; [|done]. intros [= <-].
  split; [done|]. intros i c Hi Hc. apply mapR_Ok in Hcols.
  assert (take (length lx - 1) lx !! i = Some c) as Htake
    by (rewrite lookup_take_lt by lia; done).
  destruct (Forall2_lookup_l _ _ _ _ _ Hcols Htake) as (col & Hcol & ?).
  exists col. split; [done|]. simpl. by rewrite list_lookup_fmap, Hcol.
Qed.
End two_grams.

(** ** The guess order and the rank *)

Section rank.
Local Open Scope nat_scope.
Variable p : list Qc.

Global Instance guessed_before_total : Total (Nvtools.guessed_before p).
Proof.
  intros i j. unfold Nvtools.guessed_before.
  destruct (Qclt_le_dec (p !!! j) (p !!! i)) as [|Hji]; [by do 2 left|].
  apply Qcle_lt_or_eq in Hji as [|Heq]; [right; by left|].
  destruct (decide (i ≤ j)); [left|right]; right; split; (done || lia).
Qed.

Global Instance guessed_before_trans :
  Transitive (Nvtools.guessed_before p).
Proof.
  intros i j k. unfold Nvtools.guessed_before.
  intros [Hij|[Hij ?]] [Hjk|[Hjk ?]].
  - left. by trans (p !!! j).
  - left. by rewrite Hjk.
  - left. by rewrite <-Hij.
  - right. split; [congruence|lia].
Qed.

Lemma guess_order_Permutation :
  Nvtools.guess_order p ≡ₚ seq 0 (length p).
Proof. apply merge_sort_Permutation. Qed.

Lemma guess_order_sorted :
  StronglySorted (Nvtools.guessed_before p) (Nvtools.guess_order p).
Proof. apply (StronglySorted_merge_sort _). Qed.

Lemma elem_of_guess_order i : i ∈ Nvtools.guess_order p ↔ i < length p.
Proof. rewrite guess_order_Permutation, elem_of_seq. lia. Qed.

Lemma length_guess_order : length (Nvtools.guess_order p) = length p.
Proof. by rewrite guess_order_Permutation, length_seq. Qed.

Lemma rank_bounds t r : Nvtools.rank p t = Some r → 1 ≤ r ≤ length p.
Proof.
  unfold Nvtools.rank.
  destruct (list_find _ _) as [[i x]|] eqn:Hfind; simpl; [|done].
  intros [= <-]. apply list_find_Some in Hfind as [Hi%lookup_lt_Some _].
  rewrite length_guess_order in Hi. lia.
Qed.

Lemma rank_total t : t < length p → is_Some (Nvtools.rank p t).
Proof.
  intros Ht. unfold Nvtools.rank.
  destruct (list_find_elem_of (λ i, i = t) (Nvtools.guess_order p) t)
    as [found ->]; [by apply elem_of_guess_order|done|].
  by eexists.
Qed.

(** A symbol strictly more probable than all others is guessed first. *)
Lemma rank_strict_max t :
  t < length p →
  (∀ j, j < length p → j ≠ t → (p !!! j < p !!! t)%Qc) →
  Nvtools.rank p t = Some 1.
Proof.
  intros Ht Hmax. unfold Nvtools.rank.
  pose proof guess_order_sorted as Hsorted.
  pose proof (proj2 (elem_of_guess_order t) Ht) as Hin.
  destruct (Nvtools.guess_order p) as [|h rest] eqn:Horder;
    [by apply elem_of_nil in Hin|].
  assert (h = t) as ->; [|simpl; by rewrite decide_True].
  destruct (decide (h = t)) as [|Hne]; [done|exfalso].
  assert (h < length p) as Hh
    by (apply elem_of_guess_order; rewrite Horder; constructor).
  apply elem_of_cons in Hin as [?|Hin]; [done|].
  apply StronglySorted_inv in Hsorted as [_ Hhd].
  rewrite Forall_forall in Hhd. specialize (Hhd t Hin).
  specialize (Hmax h Hh Hne).
  destruct Hhd as [Hlt|[Heq _]].
  - by apply (Qclt_not_le _ _ Hlt), Qclt_le_weak.
  - rewrite Heq in Hmax. by apply (Qclt_not_eq _ _ Hmax).
Qed.
End rank.

(** ** Distributions *)

Section distributions.
Local Open Scope Qc_scope.

Lemma tolerance_lt_1 : tolerance < 1.
Proof. by vm_compute. Qed.

Lemma Qc_sum_two p i j a b :
  Forall (λ v, 0 ≤ v) p → i ≠ j →
  p !! i = Some a → p !! j = Some b → a + b ≤ Qc_sum p.
Proof.
  intros Hp. revert i j.
  induction Hp as [|x p Hx Hp IH]; intros i j Hij Hi Hj; [done|].
  assert (∀ k v, p !! k = Some v → v ≤ Qc_sum p) as Hone.
  { clear -Hp. induction Hp as [|y p Hy Hp IH]; intros [|k] v Hv;
      simplify_eq/=.
    - rewrite <-(Qcplus_0_r v) at 1.
      apply Qcplus_le_compat; [done|by apply Qc_sum_nonneg].
    - rewrite <-(Qcplus_0_l v).
      apply Qcplus_le_compat; [done|by eapply IH]. }
  destruct i as [|i], j as [|j]; simplify_eq/=.
  - apply Qcplus_le_compat; [done|by eapply Hone].
  - rewrite (Qcplus_comm a). apply Qcplus_le_compat; [done|by eapply Hone].
  - rewrite <-(Qcplus_0_l (a + b)).
    apply Qcplus_le_compat; [done|]. eapply IH; [|done..]. congruence.
Qed.

(** In a distribution that gives probability one to [t], every other
    symbol is strictly less probable. *)
Lemma certain_strict_max p t j :
  distribution p → p !! t = Some 1 → (j < length p)%nat → j ≠ t →
  p !!! j < p !!! t.
Proof.
  intros [Hnn [_ Hsum]] Ht Hj Hne.
  destruct (lookup_lt_is_Some_2 p j Hj) as [b Hb].
  rewrite (list_lookup_total_correct _ _ _ Ht).
  rewrite (list_lookup_total_correct _ _ _ Hb).
  pose proof (Qc_sum_two p t j 1 b Hnn ltac:(done) Ht Hb) as Htwo.
  apply Qcle_lt_trans with tolerance; [|apply tolerance_lt_1].
  apply (Qcplus_le_mono_l _ _ 1). by trans (Qc_sum p).
Qed.
End distributions.

(** ** The average number of steps *)

Section avg_steps.
Local Open Scope nat_scope.

Lemma Qc_of_nat_mul n m : Qc_of_nat (n * m) = (Qc_of_nat n * Qc_of_nat m)%Qc.
Proof. unfold Qc_of_nat. by rewrite Nat2Z.inj_mul, Z2Qc_inj_mul. Qed.

(** What a returned score is made of. *)
Lemma avg_steps_Ok labels preds s :
  Nvtools.avg_steps labels preds = Ok s →
  length labels = length preds ∧ labels ≠ [] ∧
  ∃ ranks,
    Forall2 (λ tp r, Nvtools.rank tp.2 tp.1 = Some r)
      (zip labels preds) ranks ∧
    s = (Qc_of_nat (sum_list ranks) / Qc_of_nat (length labels))%Qc.
Proof.
  unfold Nvtools.avg_steps. repeat case_decide; try done.
  destruct (mapR _ (zip labels preds)) as [ranks|e] eqn:Hranks; simpl;
    [|done].
  intros [= <-]. split_and!; [lia|done|]. exists ranks. split; [|done].
  apply mapR_Ok in Hranks.
  eapply Forall2_impl; [done|]. intros [t q] r; simpl.
  by destruct (Nvtools.rank q t); intros [= <-].
Qed.

Lemma avg_steps_returns labels preds ranks :
  labels ≠ [] → length labels = length preds →
  Forall (Forall (λ v, 0 ≤ v)%Qc) preds →
  Forall2 (λ tp r, Nvtools.rank tp.2 tp.1 = Some r)
    (zip labels preds) ranks →
  Nvtools.avg_steps labels preds
    = Ok (Qc_of_nat (sum_list ranks) / Qc_of_nat (length labels))%Qc.
Proof.
  intros Hne Hlen Hnn Hranks. unfold Nvtools.avg_steps.
  rewrite decide_False by lia. rewrite decide_False by done.
  rewrite decide_True by done.
  assert (mapR (λ tp, of_option InputValidationError
                        (Nvtools.rank tp.2 tp.1))
            (zip labels preds) = Ok ranks) as ->; [|done].
  apply mapR_Ok. eapply Forall2_impl; [done|].
  intros [t q] r; simpl. by intros ->.
Qed.

Lemma ranks_exist labels preds :
  Forall2 (λ t q, t < length q) labels preds →
  ∃ ranks, Forall2 (λ tp r, Nvtools.rank tp.2 tp.1 = Some r)
             (zip labels preds) ranks.
Proof.
  induction 1 as [|t q labels preds Ht _ [ranks IH]]; [by exists []|].
  destruct (rank_total q t Ht) as [r Hr].
  exists (r :: ranks). by constructor.
Qed.

Lemma ranks_certain labels preds :
  Forall2 (λ t q, distribution q ∧ q !! t = Some 1%Qc) labels preds →
  Forall2 (λ tp r, Nvtools.rank tp.2 tp.1 = Some r)
    (zip labels preds) (replicate (length labels) 1).
Proof.
  induction 1 as [|t q labels preds [Hq Ht] _ IH]; simpl; constructor;
    [|done].
  simpl. apply rank_strict_max; [by eapply lookup_lt_Some|].
  intros j Hj Hne. by apply certain_strict_max.
Qed.

Lemma sum_list_between (k : nat) ranks :
  Forall (λ r, 1 ≤ r ≤ k) ranks →
  length ranks ≤ sum_list ranks ≤ k * length ranks.
Proof. induction 1 as [|r ranks Hr _ IH]; simpl; nia. Qed.

Lemma ranks_between (k : nat) labels preds ranks :
  Forall (λ q, length q = k) preds →
  length labels = length preds →
  Forall2 (λ tp r, Nvtools.rank tp.2 tp.1 = Some r)
    (zip labels preds) ranks →
  length ranks = length labels ∧ Forall (λ r, 1 ≤ r ≤ k) ranks.
Proof.
  intros Hk Hlen Hranks. split.
  - apply Forall2_length in Hranks.
    rewrite length_zip_with in Hranks. lia.
  - apply Forall_forall. intros r Hr.
    apply list_elem_of_lookup in Hr as [i Hi].
    destruct (Forall2_lookup_r _ _ _ _ _ Hranks Hi) as ([t q] & Htq & Hrk).
    simpl in Hrk. apply rank_bounds in Hrk.
    apply lookup_zip_with_Some in Htq as (? & ? & [= <- <-] & _ & Hq).
    rewrite Forall_forall in Hk.
    rewrite (Hk q) in Hrk by (by eapply list_elem_of_lookup_2). done.
Qed.
End avg_steps.

(** * The claims *)

(** C1: whenever [avg_steps] returns a score for predictions over [k]
    symbols the score lies between 1 and [k]; it does return one for a
    non-empty sequence of labels below [k] with as many non-negative
    predictions; and when every prediction is a distribution that gives
    probability one to the true label the score is exactly 1. *)
Theorem avg_steps_range (k : nat) labels preds :
  Forall (λ q, length q = k) preds →
  (∀ s, Nvtools.avg_steps labels preds = Ok s → (1 ≤ s ≤ Qc_of_nat k)%Qc) ∧
  (labels ≠ [] →
   Forall2 (λ t q, (t < k)%nat ∧ Forall (λ v, 0 ≤ v)%Qc q) labels preds →
   ∃ s, Nvtools.avg_steps labels preds = Ok s) ∧
  (labels ≠ [] →
   Forall2 (λ t q, distribution q ∧ q !! t = Some 1%Qc) labels preds →
   Nvtools.avg_steps labels preds = Ok 1%Qc).
Proof.
  intros Hk. split_and!.
  - intros s (Hlen & Hne & ranks & Hranks & ->)%avg_steps_Ok.
    destruct (ranks_between k _ _ _ Hk Hlen Hranks) as [Hn Hall].
    apply sum_list_between in Hall. rewrite Hn in Hall.
    apply Qcdiv_between.
    + apply Qc_of_nat_pos. destruct labels; [done|simpl; lia].
    + rewrite Qcmult_1_l. apply Qc_of_nat_le. lia.
    + rewrite <-Qc_of_nat_mul. apply Qc_of_nat_le. lia.
  - intros Hne Hall.
    destruct (ranks_exist labels preds) as [ranks Hranks].
    { eapply Forall2_impl; [by apply Forall2_and_right|].
      intros t q [[Ht _] Hq]; simpl in *. by rewrite Hq. }
    eexists. apply avg_steps_returns; [done| | |done].
    + by eapply Forall2_length.
    + eapply Forall2_right; [|done]. by intros t q [_ Hq].
  - intros Hne Hall. pose proof (ranks_certain _ _ Hall) as Hranks.
    assert (Forall (Forall (λ v, 0 ≤ v)%Qc) preds) as Hnn.
    { eapply Forall2_right; [|done]. by intros t q [[Hq _] _]. }
    rewrite (avg_steps_returns _ _ _ Hne (Forall2_length _ _ _ Hall)
               Hnn Hranks).
    f_equal. rewrite sum_list_replicate, Nat.mul_1_r.
    apply Qcdiv_self. intros Hz.
    pose proof (Qc_of_nat_pos (length labels)) as Hpos.
    rewrite Hz in Hpos. apply (Qclt_not_eq 0%Qc 0%Qc); [|done].
    apply Hpos. destruct labels; [done|simpl; lia].
Qed.

Lemma avg_steps_range_witness :
  Nvtools.avg_steps [0; 1]%nat [[1; 0]; [0; 1]]%Qc = Ok 1%Qc ∧
  (∀ s, Nvtools.avg_steps [1; 1]%nat [[1; 0]; [0; 1]]%Qc = Ok s →
        (1 ≤ s ≤ Qc_of_nat 2)%Qc).
Proof.
  split.
  - apply (avg_steps_range 2 [0; 1]%nat [[1; 0]; [0; 1]]%Qc).
    + by repeat constructor.
    + done.
    + repeat constructor; by vm_compute.
  - apply (avg_steps_range 2 [1; 1]%nat [[1; 0]; [0; 1]]%Qc).
    by repeat constructor.
Defined.

Lemma two_grams_alternating :
  Nvtools.two_grams [0; 1]%Z [0; 1; 0; 1; 0; 1]%Z
    = Ok [[0; 2]; [3; 0]]%Z.
Proof. reflexivity. Qed.

(** C2, as the specification states it, fails: the sequence
    [[0,1,0,1,0,1]] has five adjacent pairs, so the counts cannot be
    [[[0,3],[3,0]]]. *)
Lemma two_grams_alternating_not_3_3 :
  Nvtools.two_grams [0; 1]%Z [0; 1; 0; 1; 0; 1]%Z
    ≠ Ok [[0; 3]; [3; 0]]%Z.
Proof. rewrite two_grams_alternating. by intros [=]. Qed.

(** C2, amended: the matrix is indexed [next][current]. For alphabet
    [{0,1}] and sequence [[0,1,0,1,0,1]] it is [[[0,2],[3,0]]]; in general
    the operation returns a matrix for every non-empty sequence over the
    alphabet, whose row [r], column [c] holds the number of times the
    symbol of index [r] follows the symbol of index [c], so the column of
    the current symbol
    holds the counts of the next symbols, and the scoring code reads the
    prediction after a label as that one column. *)
Theorem two_grams_next_current :
  Nvtools.two_grams [0; 1]%Z [0; 1; 0; 1; 0; 1]%Z = Ok [[0; 2]; [3; 0]]%Z ∧
  (∀ alphabet sequence,
     sequence ≠ [] → (∀ s, s ∈ sequence → s ∈ alphabet) →
     ∃ gg, Nvtools.two_grams alphabet sequence = Ok gg) ∧
  ∀ alphabet sequence gg cur nxt c r,
    Nvtools.two_grams alphabet sequence = Ok gg →
    Nvtools.symbol_index alphabet cur = Ok c →
    Nvtools.symbol_index alphabet nxt = Ok r →
    entry gg r c = Some (Z.of_nat (transitions cur nxt sequence)) ∧
    (∃ col, Script.column gg c = Ok col ∧
            col !! r = Some (Z.of_nat (transitions cur nxt sequence))) ∧
    (∀ prob lx yp i,
       Script.y_pred2 prob gg lx = Ok yp →
       (S i < length lx)%nat → lx !! i = Some c →
       ∃ col, Script.column gg c = Ok col ∧
              yp !! S i = Some (Qc_of_Z <$> col)).
Proof.
  split; [apply two_grams_alternating|].
  split; [apply two_grams_total|].
  intros alphabet sequence gg cur nxt c r Hgg Hc Hr.
  pose proof (two_grams_entry _ _ _ _ _ _ _ Hgg Hc Hr) as Hentry.
  destruct (two_grams_square _ _ _ Hgg) as [Hrows Hcols].
  pose proof (lookup_lt_Some _ _ _ (symbol_index_Ok _ _ _ Hc)) as Hck.
  pose proof (lookup_lt_Some _ _ _ (symbol_index_Ok _ _ _ Hr)) as Hrk.
  split_and!; [done| |].
  - destruct (column_total gg c) as [col Hcol].
    { eapply Forall_impl; [done|]. intros row ->. done. }
    exists col. split; [done|].
    rewrite (column_lookup _ _ _ _ Hcol) by lia. done.
  - intros prob lx yp i Hyp Hi Hlx.
    destruct (y_pred2_rows _ _ _ _ Hyp) as [_ Hrow]. by apply Hrow.
Qed.

Lemma two_grams_next_current_witness :
  entry [[0; 2]; [3; 0]]%Z 1 0
    = Some (Z.of_nat (transitions 0 1 [0; 1; 0; 1; 0; 1]%Z)).
Proof.
  apply (proj2 (proj2 two_grams_next_current)
           [0; 1]%Z [0; 1; 0; 1; 0; 1]%Z [[0; 2]; [3; 0]]%Z 0%Z 1%Z 0%nat
           1%nat); reflexivity.
Defined.

(** C3, as the specification states it, fails: the estimate of an empty
    sequence raises nothing. *)
Lemma class_prob_empty_not_rejected : ¬ ∃ e, NV.class_prob [] = Raise e.
Proof. by intros [e [=]]. Qed.

(** C3, amended: the estimate has no error conditions at all; on the
    empty sequence it returns the empty vector of probabilities. *)
Theorem class_prob_never_raises labels :
  NV.class_prob [] = Ok [] ∧ ∃ p, NV.class_prob labels = Ok p.
Proof.
  split; [done|]. unfold NV.class_prob.
  destruct (labelsX_chars labels) as (lx & -> & _). simpl. by eexists.
Qed.



(** C6: for [[0,0,1,1,0,1]] the distinct labels are 0 and 1 and the
    estimate gives one half to each. *)
Theorem class_prob_example :
  NV.chars [0; 0; 1; 1; 0; 1]%Z = [0; 1]%Z ∧
  NV.class_prob [0; 0; 1; 1; 0; 1]%Z = Ok [1 / 2; 1 / 2]%Qc.
Proof.
  split; [reflexivity|].
  change (Ok (NV.prob [0; 0; 1; 1; 0; 1]%nat) = Ok [1 / 2; 1 / 2]%Qc).
  f_equal. unfold NV.prob, Np.true_divide.
  change (Np.bincount _) with [3; 3]%nat. simpl.
  f_equal; [|f_equal]; by apply Qc_is_canon.
Qed.

(** C4, as the specification states it, fails: on the labels
    [[0,1,0,1,0,1]] the script scores the row [[0, 3]], the column of
    label 0 as counted, and not that column divided by its sum. *)
Lemma y_pred2_not_normalized :
  ∃ g yp col,
    Script.run [0; 1; 0; 1; 0; 1]%Z = Ok g ∧
    Script.y_pred2 (Script.g_prob g) (Script.g_gg g) (Script.g_labelsX g)
      = Ok yp ∧
    Script.column (Script.g_gg g) 0 = Ok col ∧
    yp !! 1%nat = Some (Qc_of_Z <$> col) ∧
    yp !! 1%nat ≠ Some (normalized col).
Proof.
  eexists _, _, [0; 3]%Z. split_and!.
  - vm_compute. reflexivity.
  - vm_compute. reflexivity.
  - reflexivity.
  - reflexivity.
  - intros H. vm_compute in H. discriminate H.
Qed.

(** C4, amended: the transition-count operation returns raw
    non-negative integer counts, the entry at row [r] and column [c] being
    the number of transitions counted; the caller stacks the columns as
    they are under [prob], without dividing them by their sums, and
    scores these rows. *)
Theorem two_grams_raw_counts alphabet sequence gg :
  Nvtools.two_grams alphabet sequence = Ok gg →
  Forall (Forall (λ n, 0 ≤ n)%Z) gg ∧
  (∀ cur nxt c r,
     Nvtools.symbol_index alphabet cur = Ok c →
     Nvtools.symbol_index alphabet nxt = Ok r →
     entry gg r c = Some (Z.of_nat (transitions cur nxt sequence))) ∧
  (∀ prob lx yp,
     Script.y_pred2 prob gg lx = Ok yp →
     ∃ cols,
       mapR (Script.column gg) (take (length lx - 1) lx) = Ok cols ∧
       yp = prob :: ((λ col : list Z, Qc_of_Z <$> col) <$> cols)) ∧
  (∀ g, Script.g_gg g = gg →
     Script.av2 g =
       Script.y_pred2 (Script.g_prob g) gg (Script.g_labelsX g)
         ≫= Nvtools.avg_steps (Script.g_labelsX g)).
Proof.
  intros Hgg. split_and!.
  - by eapply two_grams_nonneg.
  - intros cur nxt c r. by apply two_grams_entry.
  - intros prob lx yp. unfold Script.y_pred2.
    destruct (mapR _ (take _ lx)) as [cols|e]; simpl; [|done].
    unfold Script.vstack. case_decide; [|done].
    intros [= <-]. by exists cols.
  - by intros g <-.
Qed.

Lemma two_grams_raw_counts_witness :
  Forall (Forall (λ n, 0 ≤ n)%Z) [[0; 2]; [3; 0]]%Z ∧
  entry [[0; 2]; [3; 0]]%Z 0 1
    = Some (Z.of_nat (transitions 1 0 [0; 1; 0; 1; 0; 1]%Z)).
Proof.
  destruct (two_grams_raw_counts [0; 1]%Z [0; 1; 0; 1; 0; 1]%Z
              [[0; 2]; [3; 0]]%Z eq_refl) as (Hnn & Hentry & _).
  split; [exact Hnn|]. by apply Hentry.
Defined.

(** C7: each estimate leaves [labels] as it was and its result is a
    function of [labels] alone: running it again on the state it produced
    reproduces that state, and two runs from states with the same labels
    give the same [prob], respectively the same [gg], whatever else the
    states hold. *)
Theorem estimates_idempotent g g' r :
  Script.g_labels g' = Script.g_labels g →
  (∃ r0, Script.estimate_class_prob g = Ok r0) ∧
  (Script.estimate_class_prob g = Ok r →
     Script.g_labels r = Script.g_labels g ∧
     NV.class_prob (Script.g_labels g) = Ok (Script.g_prob r) ∧
     Script.estimate_class_prob r = Ok r ∧
     ∃ r', Script.estimate_class_prob g' = Ok r' ∧
           Script.g_prob r' = Script.g_prob r) ∧
  (Script.estimate_two_grams g = Ok r →
     Script.g_labels r = Script.g_labels g ∧
     Nvtools.two_grams (NV.chars (Script.g_labels g)) (Script.g_labels g)
       = Ok (Script.g_gg r) ∧
     Script.estimate_two_grams r = Ok r ∧
     ∃ r', Script.estimate_two_grams g' = Ok r' ∧
           Script.g_gg r' = Script.g_gg r).
Proof.
  intros Hlabels. split_and!.
  - unfold Script.estimate_class_prob.
    destruct (labelsX_chars (Script.g_labels g)) as (lx & -> & _).
    simpl. by eexists.
  - unfold Script.estimate_class_prob, NV.class_prob. rewrite Hlabels.
    destruct (NV.labelsX _ (Script.g_labels g)) as [lx|e] eqn:Hlx; simpl;
      [|done].
    intros [= <-]. simpl. rewrite Hlx. simpl.
    split_and!; [done..|by eexists].
  - unfold Script.estimate_two_grams. rewrite Hlabels.
    destruct (Nvtools.two_grams _ (Script.g_labels g)) as [gg|e] eqn:Hgg;
      simpl; [|done].
    intros [= <-]. simpl. rewrite Hgg. simpl.
    split_and!; [done..|by eexists].
Qed.

Lemma estimates_idempotent_witness :
  ∃ r, Script.estimate_class_prob (Script.start [0; 0; 1]%Z) = Ok r ∧
       Script.estimate_class_prob r = Ok r.
Proof.
  destruct (estimates_idempotent (Script.start [0; 0; 1]%Z)
              (Script.start [0; 0; 1]%Z)
              (Script.start [0; 0; 1]%Z) eq_refl) as ([r Hr] & _ & _).
  exists r. split; [exact Hr|].
  destruct (estimates_idempotent (Script.start [0; 0; 1]%Z)
              (Script.start [0; 0; 1]%Z) r eq_refl) as (_ & H & _).
  by destruct (H Hr) as (_ & _ & Hagain & _).
Defined.

(** C8: for [N >= 1], any [p] and [q] and any state of the random
    generator, the array has length [N], starts with 0, each element is
    its predecessor XOR 1 or XOR 2, and all elements are 0, 1, 2 or 3. *)
Theorem generate_double2lvl_walk (N : nat) (p q : Qc) (g : NV.rng) :
  (1 ≤ N)%nat →
  let x := (NV.generate_double2lvl N p q g).1 in
  length x = N ∧
  x !! 0%nat = Some 0%Z ∧
  (∀ i, (S i < N)%nat →
     ∃ v w, x !! i = Some v ∧ x !! S i = Some w ∧
            (w = Z.lxor v 1 ∨ w = Z.lxor v 2)) ∧
  Forall (λ v, v ∈ [0; 1; 2; 3]%Z) x.
Proof.
  intros HN x.
  assert (N - 1 < N)%nat as Hlast by lia.
  destruct (flips_invariant p N g (N - 1) Hlast)
    as (Hlen & H0 & Hbits & Hsteps & _).
  change (flips p N g (N - 1)).1 with x in Hlen, H0, Hbits, Hsteps.
  split_and!; [done|done| |].
  - intros i Hi. apply Hsteps. lia.
  - apply Forall_forall. intros v [i Hi]%list_elem_of_lookup.
    apply (Hbits i); [|done]. apply lookup_lt_Some in Hi. lia.
Qed.

Lemma generate_double2lvl_walk_witness :
  (NV.generate_double2lvl 3 (1 / 2)%Qc (1 / 2)%Qc
     {| NV.samples := λ n, if Nat.even n then 0%Qc else 1%Qc;
        NV.drawn := 0 |}).1 !! 0%nat = Some 0%Z.
Proof.
  apply (generate_double2lvl_walk 3 (1 / 2)%Qc (1 / 2)%Qc). lia.
Defined.

(** C9: after the loop, at every position [i] of the labels, [onetwo[i]]
    is the most recent label among the positions 1 to [i] that is 1 or 2,
    or 0 when there is none, and [threefour[i]] likewise for 3 and 4;
    both are 0 at position 0, and [labels[0]] has no influence on either
    array. *)
Theorem tracking_most_recent (labels : list Z) (i : nat) :
  (i < length labels)%nat →
  NV.onetwo labels !! i = Some (most_recent 1 2 labels i) ∧
  NV.threefour labels !! i = Some (most_recent 3 4 labels i) ∧
  NV.onetwo labels !! 0%nat = Some 0%Z ∧
  NV.threefour labels !! 0%nat = Some 0%Z ∧
  (∀ l0, NV.onetwo (<[0%nat := l0]> labels) = NV.onetwo labels ∧
         NV.threefour (<[0%nat := l0]> labels) = NV.threefour labels).
Proof.
  intros Hi. split_and!.
  - by apply onetwo_lookup.
  - by apply threefour_lookup.
  - rewrite onetwo_lookup by lia. by rewrite most_recent_0.
  - rewrite threefour_lookup by lia. by rewrite most_recent_0.
  - intros l0. destruct labels as [|l labels]; [done|]. simpl.
    unfold NV.onetwo, NV.threefour, NV.track_loop.
    rewrite !track_loop_split. simpl.
    split; apply tracked_first_label.
Qed.

Lemma tracking_most_recent_witness :
  NV.onetwo [2; 0; 1; 3; 0]%Z !! 4%nat = Some 1%Z ∧
  NV.threefour [2; 0; 1; 3; 0]%Z !! 4%nat = Some 3%Z.
Proof.
  destruct (tracking_most_recent [2; 0; 1; 3; 0]%Z 4 ltac:(simpl; lia))
    as (H12 & H34 & _).
  split; [exact H12|exact H34].
Defined.

(** C10: [flatten] returns the concatenation of the inner lists in their
    order, so its length is the sum of their lengths;
    [flatten([[1,2],[3,4],[10]]) = [1,2,3,4,10]]. *)
Theorem flatten_concat {A} (lst : list (list A)) :
  Tools.flatten lst = concat lst ∧
  length (Tools.flatten lst) = sum_list (length <$> lst) ∧
  Tools.flatten [[1; 2]; [3; 4]; [10]]%nat = [1; 2; 3; 4; 10]%nat.
Proof.
  assert (∀ B (l : list (list B)), Tools.flatten l = concat l) as Hflat.
  { intros B l. unfold Tools.flatten, Tools.chain.
    by rewrite Tools.list_of_iter_spec. }
  split_and!; [done| |by rewrite Hflat].
  rewrite Hflat. apply Tools.length_concat_sum.
Qed.

(** * More of the code: properties *)

(** ** [resetgates] *)

Section resetgates.
Variable basevalues : option (gmap string Qc).
Variable verbose : Z.

Lemma resetgates_loop_values activegates w :
  Gates.values (foldl (Gates.resetgates_body basevalues verbose) w activegates)
  = foldl (λ m g, <[g := Gates.base basevalues g]> m) (Gates.values w)
      activegates.
Proof.
  revert w. induction activegates as [|g gs IH]; intros w; simpl; [done|].
  rewrite IH. unfold Gates.resetgates_body. by case_decide.
Qed.

Lemma resetgates_loop_stdout activegates w :
  Gates.stdout (foldl (Gates.resetgates_body basevalues verbose) w activegates)
  = Gates.stdout w ++
      (if decide (2 ≤ verbose)%Z
       then (λ g, Gates.Setting g (Gates.base basevalues g)) <$> activegates
       else []).
Proof.
  revert w. induction activegates as [|g gs IH]; intros w; simpl.
  - case_decide; by rewrite app_nil_r.
  - rewrite IH. unfold Gates.resetgates_body.
    case_decide; simpl; [|done]. by rewrite <-app_assoc.
Qed.

Lemma insert_all_lookup (f : string → Qc) (gs : list string)
    (m : gmap string Qc) g :
  foldl (λ m g, <[g := f g]> m) m gs !! g
  = if decide (g ∈ gs) then Some (f g) else m !! g.
Proof.
  revert m. induction gs as [|g' gs IH]; intros m; simpl.
  - done.
  - rewrite IH. destruct (decide (g ∈ gs)) as [Hin|Hnin].
    + rewrite decide_True; [done|]. by right.
    + rewrite lookup_insert. destruct (decide (g' = g)) as [->|Hne].
      * rewrite decide_True; [done|]. by left.
      * rewrite decide_False; [done|].
        intros [?|?]%elem_of_cons; congruence.
Qed.

Lemma resetgates_lookup activegates w g :
  Gates.values (Gates.resetgates activegates basevalues verbose w) !! g
  = if decide (g ∈ activegates) then Some (Gates.base basevalues g)
    else Gates.values w !! g.
Proof.
  unfold Gates.resetgates. rewrite resetgates_loop_values, insert_all_lookup.
  by repeat case_decide.
Qed.
End resetgates.

(** X1: after [resetgates] every gate of [activegates] holds its value of
    [basevalues], or 0 when [basevalues] is [None] or has no such key, and
    every other gate holds what it held before. *)
Theorem resetgates_values activegates basevalues verbose w g :
  Gates.values (Gates.resetgates activegates basevalues verbose w) !! g
  = if decide (g ∈ activegates)
    then Some (match basevalues with
               | None => 0%Qc
               | Some bv => default 0%Qc (bv !! g)
               end)
    else Gates.values w !! g.
Proof.
  rewrite resetgates_lookup. by case_decide.
Qed.

(** X2: the gate values after [resetgates] depend neither on the order
    nor on the repetitions in [activegates], nor on [verbose], and a
    second reset with the same arguments changes nothing. *)
Theorem resetgates_idempotent activegates activegates' basevalues v v' w :
  (∀ g, g ∈ activegates ↔ g ∈ activegates') →
  Gates.values (Gates.resetgates activegates basevalues v w)
    = Gates.values (Gates.resetgates activegates' basevalues v' w) ∧
  Gates.values (Gates.resetgates activegates' basevalues v'
                  (Gates.resetgates activegates basevalues v w))
    = Gates.values (Gates.resetgates activegates basevalues v w).
Proof.
  intros Hsame. split; apply map_eq; intros g.
  - rewrite !resetgates_lookup.
    destruct (decide (g ∈ activegates)) as [Hin|Hnin].
    + by rewrite decide_True by (by apply Hsame).
    + by rewrite decide_False by (by rewrite <-Hsame).
  - rewrite !resetgates_lookup.
    destruct (decide (g ∈ activegates')) as [Hin|Hnin].
    + by rewrite decide_True by (by apply Hsame).
    + by rewrite decide_False by (by rewrite Hsame).
Qed.

Lemma resetgates_idempotent_witness :
  Gates.values
    (Gates.resetgates ["P1"; "T"] None 0
       (Gates.resetgates ["T"; "P1"; "T"] None 2
          {| Gates.values := ∅; Gates.stdout := [] |}))
  = Gates.values
      (Gates.resetgates ["T"; "P1"; "T"] None 2
         {| Gates.values := ∅; Gates.stdout := [] |}).
Proof.
  apply (resetgates_idempotent ["T"; "P1"; "T"] ["P1"; "T"]).
  intros g. rewrite !elem_of_cons, !elem_of_nil. tauto.
Defined.

(** X3: [resetgates] prints nothing when [verbose] is 0, only the header
    when [verbose] is another number below 2, and the header followed by
    one line per entry of [activegates], in order, from 2 on. *)
Theorem resetgates_prints activegates basevalues verbose w :
  Gates.stdout (Gates.resetgates activegates basevalues verbose w)
  = Gates.stdout w ++
      (if decide (verbose = 0)%Z then []
       else if decide (verbose < 2)%Z then [Gates.Header]
       else Gates.Header ::
              ((λ g, Gates.Setting g (Gates.base basevalues g))
                 <$> activegates)).
Proof.
  unfold Gates.resetgates. rewrite resetgates_loop_stdout.
  destruct (decide (verbose = 0%Z)) as [->|Hv].
  - rewrite decide_False by (by intros []). rewrite decide_False by lia. done.
  - rewrite decide_True by done. simpl.
    destruct (decide (verbose < 2)%Z).
    + rewrite decide_False by lia. by rewrite app_nil_r.
    + rewrite decide_True by lia. by rewrite <-app_assoc.
Qed.

(** ** [plot_parameter] *)

(** X4: [plot_parameter] returns the [main_parameter] of the metadata when
    there is one, whether or not it names an array; else the default when
    it is a key of [arrays]; else the first key. It returns [None] exactly
    when there is neither a [main_parameter] nor any array, and without a
    [main_parameter] whatever it returns is a key of [arrays]. *)
Theorem plot_parameter_result data default_parameter :
  (∀ main, Plot.metadata data !! "main_parameter" = Some main →
     Plot.plot_parameter data default_parameter = Some main) ∧
  (Plot.plot_parameter data default_parameter = None ↔
     Plot.metadata data !! "main_parameter" = None ∧ Plot.arrays data = []) ∧
  (Plot.metadata data !! "main_parameter" = None →
     ∀ key, Plot.plot_parameter data default_parameter = Some key →
       key ∈ (Plot.arrays data).*1 ∧
       (default_parameter ∈ (Plot.arrays data).*1 →
        key = default_parameter)).
Proof.
  unfold Plot.plot_parameter. split_and!.
  - by intros main ->.
  - destruct (Plot.metadata data !! "main_parameter") as [main|].
    { split; [done|]. by intros [? _]. }
    case_decide as Hin.
    { split; [done|]. intros [_ Hnil]. rewrite Hnil in Hin.
      by apply elem_of_nil in Hin. }
    destruct (Plot.arrays data) as [|[k a] rest]; simpl; [done|].
    split; [done|]. by intros [_ ?].
  - intros -> key. case_decide as Hin.
    + intros [= <-]. done.
    + destruct (Plot.arrays data) as [|[k a] rest]; simpl; [done|].
      intros [= <-]. split; [by left|]. intros Hd. by destruct Hin.
Qed.

Lemma plot_parameter_result_witness :
  Plot.plot_parameter {| Plot.metadata := ∅; Plot.arrays := [] |} "amplitude"
    = None ∧
  Plot.plot_parameter
    {| Plot.metadata := {["main_parameter" := "gate"]};
       Plot.arrays := [("amplitude", [])] |} "amplitude"
    = Some "gate".
Proof.
  split.
  - destruct (plot_parameter_result
                {| Plot.metadata := ∅; Plot.arrays := [] |} "amplitude")
      as (_ & Hnone & _).
    apply Hnone. by split.
  - by apply (plot_parameter_result
                {| Plot.metadata := {["main_parameter" := "gate"]};
                   Plot.arrays := [("amplitude", [])] |} "amplitude").
Defined.

(** ** [tilefigs] *)

Section tilefigs.
Local Open Scope nat_scope.


Lemma cell_inj (geometry : nat * nat) ii jj :
  geometry.1 ≠ 0 →
  ii < geometry.1 * geometry.2 → jj < geometry.1 * geometry.2 →
  Tile.cell geometry ii = Tile.cell geometry jj → ii = jj.
Proof.
  destruct geometry as [nx ny]; simpl. intros Hx Hi Hj.
  unfold Tile.cell; cbn [fst snd].
  rewrite (Nat.mod_small ii), (Nat.mod_small jj) by done.
  intros [= Hmod Hdiv].
  rewrite (Nat.div_mod_eq ii nx), (Nat.div_mod_eq jj nx). congruence.
Qed.

Lemma cell_period (geometry : nat * nat) ii :
  Tile.cell geometry (ii + geometry.1 * geometry.2) = Tile.cell geometry ii.
Proof.
  unfold Tile.cell.
  destruct (decide (geometry.1 * geometry.2 = 0)) as [Hz|Hnz].
  - rewrite Hz. by rewrite Nat.add_0_r.
  - replace (ii + geometry.1 * geometry.2)
      with (ii + 1 * (geometry.1 * geometry.2)) by lia.
    by rewrite Nat.Div0.mod_add.
Qed.


(** A wider cell puts later columns strictly further right. *)
Lemma Qc_of_nat_mul_inj (q : Qc) (i j : nat) :
  (0 < q)%Qc → (Qc_of_nat i * q = Qc_of_nat j * q)%Qc → i = j.
Proof.
  intros Hq Heq.
  assert (∀ a b, a < b → (Qc_of_nat a * q < Qc_of_nat b * q)%Qc) as Hlt.
  { intros a b Hab. apply Qcmult_lt_mono_pos_r; [done|].
    unfold Qc_of_nat. apply (proj1 (Z2Qc_inj_lt _ _)). lia. }
  destruct (Nat.lt_trichotomy i j) as [H|[H|H]]; [|done|].
  - apply Hlt in H. rewrite Heq in H. by apply Qclt_not_eq in H.
  - apply Hlt in H. rewrite Heq in H. by apply Qclt_not_eq in H.
Qed.

Lemma tilefigs_Return monitors ex lst geometry ww ws :
  Tile.tilefigs monitors ex lst geometry ww = Return ws →
  ∃ a, Tile.the_area monitors ww = Return a ∧
       geometry.1 ≠ 0 ∧ geometry.2 ≠ 0 ∧
       ws = omap (λ iif, if ex iif.2 : bool
                         then Some (Tile.place a
                                (Qc_of_Z (Tile.awidth a) / Qc_of_nat geometry.1)
                                (Qc_of_Z (Tile.aheight a) / Qc_of_nat geometry.2)
                                geometry iif.1 iif.2)
                         else None)
              (enumerate (match lst with inl f => [f] | inr l => l end)).
Proof.
  unfold Tile.tilefigs.
  destruct (Tile.the_area monitors ww) as [a|e]; [|done].
  repeat case_decide; try done. intros [= <-]. by exists a.
Qed.

(** The windows come in the order of the list: a later window belongs to
    a later position. *)
Lemma omap_enumerate_order {A B} (f : nat * A → option B) (l : list A)
    i j bi bj :
  i < j →
  omap f (enumerate l) !! i = Some bi →
  omap f (enumerate l) !! j = Some bj →
  ∃ ii jj x y, ii < jj ∧ jj < length l ∧
    f (ii, x) = Some bi ∧ f (jj, y) = Some bj.
Proof.
  unfold enumerate.
  assert (∀ (g : nat → A → nat * A) k, (∀ n x, g n x = (k + n, x)) →
            i < j →
            omap f (imap g l) !! i = Some bi →
            omap f (imap g l) !! j = Some bj →
            ∃ ii jj x y, ii < jj ∧ jj < length l ∧
              f (k + ii, x) = Some bi ∧ f (k + jj, y) = Some bj) as Hgen.
  { clear. revert i j. induction l as [|a l IH]; intros i j g k Hg Hij;
      [done|].
    rewrite imap_cons. simpl.
    assert (∀ n x, (g ∘ S) n x = (S k + n, x)) as Hg'
      by (intros n x; simpl; rewrite Hg; f_equal; lia).
    assert (∀ m b, omap f (imap (g ∘ S) l) !! m = Some b →
              ∃ jj y, jj < length l ∧ f (S k + jj, y) = Some b) as Hany.
    { clear -Hg'. intros m b Hm.
      apply list_elem_of_lookup_2, list_elem_of_omap in Hm
        as ([n y] & Hin & Hf).
      apply list_elem_of_lookup in Hin as [jj Hjj].
      rewrite list_lookup_imap in Hjj.
      destruct (l !! jj) as [z|] eqn:Hz; [|done].
      pose proof (Hg' jj z) as Hgz. simpl in Hjj, Hgz.
      injection Hjj as Hjj. rewrite Hgz in Hjj. injection Hjj as <- <-.
      exists jj, z. split; [by eapply lookup_lt_Some|done]. }
    destruct (f (g 0 a)) as [b|] eqn:Hfa.
    - destruct i as [|i]; destruct j as [|j]; try lia; simpl.
      + intros [= <-] Hj. destruct (Hany _ _ Hj) as (jj & y & Hjj & Hfy).
        exists 0, (S jj), a, y.
        rewrite Hg, Nat.add_0_r in Hfa.
        split_and!; [lia|lia|by rewrite Nat.add_0_r|].
        by replace (k + S jj) with (S k + jj) by lia.
      + intros Hi Hj.
        destruct (IH i j (g ∘ S) (S k) Hg' ltac:(lia) Hi Hj)
          as (ii & jj & x & y & ? & ? & ? & ?).
        exists (S ii), (S jj), x, y.
        replace (k + S ii) with (S k + ii) by lia.
        replace (k + S jj) with (S k + jj) by lia.
        split_and!; [lia|lia|done|done].
    - intros Hi Hj.
      destruct (IH i j (g ∘ S) (S k) Hg' Hij Hi Hj)
        as (ii & jj & x & y & ? & ? & ? & ?).
      exists (S ii), (S jj), x, y.
      replace (k + S ii) with (S k + ii) by lia.
      replace (k + S jj) with (S k + jj) by lia.
      split_and!; [lia|simpl; lia|done|done]. }
  intros Hij Hi Hj.
  destruct (Hgen pair 0 ltac:(done) Hij Hi Hj)
    as (ii & jj & x & y & ? & ? & ? & ?).
  by exists ii, jj, x, y.
Qed.

End tilefigs.



(** X6: when the area has a positive width and height and the list has no
    more figures than the geometry has cells, no two windows that
    [tilefigs] computes have the same position; in any case the figure
    one full page later gets the same window geometry again. *)
Theorem tilefigs_cells_distinct monitors ex lst (geometry : nat * nat)
    ww a ws :
  Tile.the_area monitors ww = Return a →
  (0 < Tile.awidth a)%Z → (0 < Tile.aheight a)%Z →
  Tile.tilefigs monitors ex lst geometry ww = Return ws →
  (length (match lst with inl f => [f] | inr l => l end)
     ≤ geometry.1 * geometry.2)%nat →
  (∀ i j wi wj, i ≠ j → ws !! i = Some wi → ws !! j = Some wj →
     (Tile.win_x wi, Tile.win_y wi) ≠ (Tile.win_x wj, Tile.win_y wj)) ∧
  (∀ w h ii f,
     Tile.place a w h geometry (ii + geometry.1 * geometry.2) f
       = Tile.place a w h geometry ii f).
Proof.
  intros Ha HW HH (a' & Ha' & Hx & Hy & ->)%tilefigs_Return Hlen.
  assert (a' = a) as -> by congruence.
  split; [|intros w h ii f; unfold Tile.place; by rewrite cell_period].
  set (w := (Qc_of_Z (Tile.awidth a) / Qc_of_nat geometry.1)%Qc).
  set (h := (Qc_of_Z (Tile.aheight a) / Qc_of_nat geometry.2)%Qc).
  assert (∀ (V : Z) (n : nat), (0 < V)%Z → n ≠ 0%nat →
            (0 < Qc_of_Z V / Qc_of_nat n)%Qc) as Hpos.
  { intros V n HV Hn. apply Qcmult_pos_pos.
    - rewrite <-Z2Qc_inj_0. by apply (proj1 (Z2Qc_inj_lt _ _)).
    - apply Qcinv_pos, Qc_of_nat_pos. lia. }
  assert (∀ i j wi wj, (i < j)%nat →
            omap (λ iif, if ex iif.2 : bool
                         then Some (Tile.place a w h geometry iif.1 iif.2)
                         else None)
              (enumerate (match lst with inl f => [f] | inr l => l end))
              !! i = Some wi →
            omap (λ iif, if ex iif.2 : bool
                         then Some (Tile.place a w h geometry iif.1 iif.2)
                         else None)
              (enumerate (match lst with inl f => [f] | inr l => l end))
              !! j = Some wj →
            (Tile.win_x wi, Tile.win_y wi) ≠ (Tile.win_x wj, Tile.win_y wj))
    as Hlt.
  { intros i j wi wj Hij Hi Hj.
    destruct (omap_enumerate_order _ _ _ _ _ _ Hij Hi Hj)
      as (ii & jj & f & f' & Hiijj & Hjj & Hfi & Hfj).
    simpl in Hfi, Hfj.
    destruct (ex f); [|done]. destruct (ex f'); [|done].
    injection Hfi as <-. injection Hfj as <-.
    unfold Tile.place.
    destruct (Tile.cell geometry ii) as [ix iy] eqn:Hci.
    destruct (Tile.cell geometry jj) as [jx jy] eqn:Hcj. simpl.
    intros Heq.
    pose proof (f_equal fst Heq) as Hxeq.
    pose proof (f_equal snd Heq) as Hyeq. simpl in Hxeq, Hyeq.
    apply (inj (Qcplus _)) in Hxeq, Hyeq.
    apply Qc_of_nat_mul_inj in Hxeq; [|by apply Hpos].
    apply Qc_of_nat_mul_inj in Hyeq; [|by apply Hpos].
    assert (ii = jj); [|lia].
    apply (cell_inj geometry); [done|lia|lia|]. congruence. }
  intros i j wi wj Hij Hi Hj.
  destruct (Nat.lt_trichotomy i j) as [?|[?|?]]; [by eapply Hlt|done|].
  intros Heq. by eapply (Hlt j i wj wi).
Qed.

Lemma tilefigs_cells_distinct_witness :
  ∃ ws wi wj,
    Tile.tilefigs [Tile.Area 0 0 1600 1200] (λ _, true)
      (inr [1; 2; 3]%Z) (2, 2)%nat None = Return ws ∧
    ws !! 0%nat = Some wi ∧ ws !! 2%nat = Some wj ∧
    (Tile.win_x wi, Tile.win_y wi) ≠ (Tile.win_x wj, Tile.win_y wj).
Proof.
  eexists _, _, _. split; [reflexivity|]. split; [reflexivity|].
  split; [reflexivity|].
  eapply (tilefigs_cells_distinct [Tile.Area 0 0 1600 1200] (λ _, true)
            (inr [1; 2; 3]%Z) (2, 2)%nat None (Tile.Area 0 0 1600 1200)
            _ eq_refl eq_refl eq_refl eq_refl).
  - simpl. lia.
  - instantiate (1 := 2%nat). instantiate (1 := 0%nat). lia.
  - reflexivity.
  - reflexivity.
Defined.



(** ** [cutoffFilter] *)

Section cutoffFilter.
Local Open Scope Qc_scope.
Variable sin : Qc → Qc.
Variable pi : Qc.

Lemma assign_where_lookup mask x v y i :
  Filter.assign_where mask x v y !! i
  = xi ← x !! i; yi ← y !! i; Some (if mask xi : bool then v else yi).
Proof. unfold Filter.assign_where. by rewrite lookup_zip_with. Qed.

(** The three values an entry of the result can take, in the order in
    which the code assigns them. *)
Lemma cutoffFilter_lookup x thr omega i xi :
  x !! i = Some xi →
  Filter.cutoffFilter sin pi x thr omega !! i
  = Some (if bool_decide (thr + omega < xi) then 0
          else if bool_decide (xi < thr - omega) then 1
          else 1 / 2 * (1 - sin (pi * (xi - thr) / (2 * omega)))).
Proof.
  intros Hxi. unfold Filter.cutoffFilter.
  rewrite !assign_where_lookup, list_lookup_fmap, Hxi. done.
Qed.

Lemma half_between s : -1 ≤ s ≤ 1 → 0 ≤ 1 / 2 * (1 - s) ≤ 1.
Proof.
  intros [Hlo Hhi].
  assert (0 ≤ 1 - s) as H0.
  { apply (Qcplus_le_mono_r _ _ s). rewrite Qcplus_0_l.
    by replace (1 - s + s) with 1 by ring. }
  assert (1 - s ≤ 1 + 1) as H2.
  { apply (Qcplus_le_mono_r _ _ (s - 1)).
    replace (1 - s + (s - 1)) with 0 by ring.
    replace (1 + 1 + (s - 1)) with (1 + s) by ring.
    apply (Qcplus_le_mono_l _ _ 1) in Hlo.
    by replace (1 + -1) with 0 in Hlo by ring. }
  assert (0 ≤ 1 / 2) as Hhalf by (by vm_compute).
  split; [by apply Qcmult_nonneg_nonneg|].
  apply Qcle_trans with (1 / 2 * (1 + 1)); [|by vm_compute].
  by apply Qcmult_le_mono_nonneg_l.
Qed.
End cutoffFilter.

(** X8: [cutoffFilter] keeps the length of [x]. For [omega > 0] an entry
    below [thr - omega] gives exactly 1, an entry above [thr + omega]
    exactly 0, and an entry between them the sine ramp; and as [sin]
    stays within -1 and 1 every value of the filter lies between 0
    and 1. *)
Theorem cutoffFilter_bands (sin : Qc → Qc) (pi : Qc) x thr omega :
  (∀ t, -1 ≤ sin t ≤ 1)%Qc → (0 < omega)%Qc →
  length (Filter.cutoffFilter sin pi x thr omega) = length x ∧
  Forall (λ y, 0 ≤ y ≤ 1)%Qc (Filter.cutoffFilter sin pi x thr omega) ∧
  ∀ i xi, x !! i = Some xi →
    ((xi < thr - omega)%Qc →
       Filter.cutoffFilter sin pi x thr omega !! i = Some 1%Qc) ∧
    ((thr + omega < xi)%Qc →
       Filter.cutoffFilter sin pi x thr omega !! i = Some 0%Qc) ∧
    ((thr - omega ≤ xi ≤ thr + omega)%Qc →
       Filter.cutoffFilter sin pi x thr omega !! i
       = Some (1 / 2 * (1 - sin (pi * (xi - thr) / (2 * omega))))%Qc).
Proof.
  intros Hsin Homega.
  assert (thr - omega < thr + omega)%Qc as Hband.
  { apply (Qcplus_lt_mono_l _ _ (omega - thr)).
    replace (omega - thr + (thr - omega))%Qc with 0%Qc by ring.
    replace (omega - thr + (thr + omega))%Qc with (omega + omega)%Qc by ring.
    by apply Qcplus_pos_pos. }
  split_and!.
  - unfold Filter.cutoffFilter, Filter.assign_where.
    rewrite !length_zip_with, length_fmap. lia.
  - apply Forall_forall. intros y [i Hy]%list_elem_of_lookup.
    destruct (lookup_lt_is_Some_2 x i) as [xi Hxi].
    { apply lookup_lt_Some in Hy. revert Hy.
      unfold Filter.cutoffFilter, Filter.assign_where.
      rewrite !length_zip_with, length_fmap. lia. }
    rewrite (cutoffFilter_lookup _ _ _ _ _ _ _ Hxi) in Hy.
    injection Hy as <-. repeat case_bool_decide; [done..|].
    apply half_between, Hsin.
  - intros i xi Hxi. rewrite (cutoffFilter_lookup _ _ _ _ _ _ _ Hxi).
    split_and!.
    + intros Hlow. rewrite bool_decide_eq_false_2, bool_decide_eq_true_2;
        [done|done|].
      apply Qcle_not_lt, Qclt_le_weak. by trans (thr - omega)%Qc.
    + intros Hhigh. by rewrite bool_decide_eq_true_2.
    + intros [Hlo Hhi].
      rewrite !bool_decide_eq_false_2; [done|by apply Qcle_not_lt..].
Qed.

Lemma cutoffFilter_bands_witness :
  Filter.cutoffFilter (λ _, 0%Qc) (Qc_of_Z 3) [0; Qc_of_Z 5]%Qc
    (Qc_of_Z 2) 1%Qc !! 1%nat = Some 0%Qc.
Proof.
  destruct (cutoffFilter_bands (λ _, 0%Qc) (Qc_of_Z 3) [0; Qc_of_Z 5]%Qc
              (Qc_of_Z 2) 1%Qc) as (_ & _ & H); [by vm_compute|done|].
  apply (H 1%nat (Qc_of_Z 5)); [done|by vm_compute].
Defined.


(** ** The batch script *)

Section batch.

Lemma flatten_is_concat {A} (l : list (list A)) : Tools.flatten l = concat l.
Proof.
  unfold Tools.flatten, Tools.chain. by rewrite Tools.list_of_iter_spec.
Qed.

Lemma elem_of_flatten {A} (ls : list (list A)) x :
  x ∈ Tools.flatten ls ↔ ∃ l, l ∈ ls ∧ x ∈ l.
Proof.
  rewrite flatten_is_concat. induction ls as [|l ls IH]; simpl.
  - split; [by intros ?%elem_of_nil|]. by intros (l & ?%elem_of_nil & _).
  - rewrite elem_of_app, IH. split.
    + intros [Hx|(l' & Hl' & Hx)].
      * exists l. split; [by left|done].
      * exists l'. split; [by right|done].
    + intros (l' & [->|Hl']%elem_of_cons & Hx); [by left|].
      right. by exists l'.
Qed.

Lemma elem_of_flatten_gates (dots : list Batch.dot) g :
  g ∈ Tools.flatten (Batch.gates <$> dots) ↔
  ∃ d, d ∈ dots ∧ g ∈ Batch.gates d.
Proof.
  rewrite elem_of_flatten. split.
  - intros (l & (d & -> & Hd)%list_elem_of_fmap & Hg). by exists d.
  - intros (d & Hd & Hg). exists (Batch.gates d).
    split; [|done]. apply list_elem_of_fmap. by exists d.
Qed.

Lemma sdgates_active one_dots sddots g :
  g ∈ Batch.sdgates sddots → g ∈ Batch.activegates one_dots sddots.
Proof.
  intros Hg. unfold Batch.activegates. rewrite !elem_of_app. auto.
Qed.

Lemma basevalues_lookup activegates b g :
  Batch.basevalues activegates b !! g
  = if decide (g ∈ ["P1"; "P2"; "P3"; "P4"]) then Some (Qc_of_Z (-80))
    else if decide (g ∈ ["SD1a"; "SD1b"; "SD1c"; "SD2a"; "SD2b"; "SD2c"])
         then Some (if b then Qc_of_Z (-150) else 0%Qc)
         else if decide (g ∈ activegates) then Some 0%Qc else None.
Proof.
  unfold Batch.basevalues.
  rewrite (insert_all_lookup (λ _, Qc_of_Z (-80))).
  rewrite (insert_all_lookup (λ _, if b then Qc_of_Z (-150) else 0%Qc)).
  rewrite (insert_all_lookup (λ _, 0%Qc)). by rewrite lookup_empty.
Qed.
End batch.

(** X9: the gates the script resets: [activegates] holds ["T"] and
    exactly the gates of the one-dots and of the sensing dots, and
    [basevalues] has a value for each of them, so that a reset never falls
    back on its default: [-80] for [P1] to [P4], the sensing-dot value for
    the six [SD] gates and 0 for every other active gate. *)
Theorem activegates_basevalues one_dots sddots b g :
  (g ∈ Batch.activegates one_dots sddots ↔
     g = "T" ∨ ∃ d, d ∈ one_dots ++ sddots ∧ g ∈ Batch.gates d) ∧
  (g ∈ Batch.activegates one_dots sddots →
     Batch.basevalues (Batch.activegates one_dots sddots) b !! g
     = Some (if decide (g ∈ ["P1"; "P2"; "P3"; "P4"]) then Qc_of_Z (-80)
             else if decide (g ∈ ["SD1a"; "SD1b"; "SD1c";
                                  "SD2a"; "SD2b"; "SD2c"])
                  then (if b then Qc_of_Z (-150) else 0%Qc)
                  else 0%Qc)).
Proof.
  split.
  - unfold Batch.activegates, Batch.sdgates.
    rewrite !elem_of_app, !elem_of_flatten_gates, list_elem_of_singleton.
    split.
    + intros [?|[(d & ? & ?)|(d & ? & ?)]]; [by left|right..];
        exists d; rewrite elem_of_app; auto.
    + intros [?|(d & [?|?]%elem_of_app & ?)]; [by left|right..];
        [left|right]; by exists d.
  - intros Hg. rewrite basevalues_lookup.
    repeat case_decide; done.
Qed.

Lemma activegates_basevalues_witness :
  Batch.basevalues
    (Batch.activegates [Batch.Dot "dot1" ["L"; "P1"; "D1"]]
       [Batch.Dot "sd1" ["SD1a"; "SD1b"; "SD1c"]]) false !! "D1"
  = Some 0%Qc.
Proof.
  apply (activegates_basevalues [Batch.Dot "dot1" ["L"; "P1"; "D1"]]
           [Batch.Dot "sd1" ["SD1a"; "SD1b"; "SD1c"]] false "D1").
  apply (activegates_basevalues [Batch.Dot "dot1" ["L"; "P1"; "D1"]]
           [Batch.Dot "sd1" ["SD1a"; "SD1b"; "SD1c"]] false "D1").
  right. exists (Batch.Dot "dot1" ["L"; "P1"; "D1"]).
  split; [by left|]. simpl. rewrite !elem_of_cons. tauto.
Defined.

(** X10: the two resets that initialise the gates (lines 330 and 331)
    leave every active gate at its value of [basevalues] and every other
    gate, also one that only [basevalues] names, as it was; the second
    reset, over the gates of the sensing dots, changes no gate value. *)
Theorem initialize_values one_dots sddots b w g :
  Gates.values (Batch.initialize one_dots sddots b w) !! g
  = (if decide (g ∈ Batch.activegates one_dots sddots)
     then Batch.basevalues (Batch.activegates one_dots sddots) b !! g
     else Gates.values w !! g) ∧
  Gates.values (Batch.initialize one_dots sddots b w)
  = Gates.values
      (Gates.resetgates (Batch.activegates one_dots sddots)
         (Some (Batch.basevalues (Batch.activegates one_dots sddots) b))
         2 w).
Proof.
  assert (∀ g',
    Gates.values (Batch.initialize one_dots sddots b w) !! g'
    = Gates.values
        (Gates.resetgates (Batch.activegates one_dots sddots)
           (Some (Batch.basevalues (Batch.activegates one_dots sddots) b))
           2 w) !! g') as Hsame.
  { intros g'. unfold Batch.initialize. rewrite !resetgates_lookup.
    destruct (decide (g' ∈ Batch.sdgates sddots)) as [Hsd|]; [|done].
    by rewrite decide_True by (by apply sdgates_active). }
  split; [|by apply map_eq].
  rewrite Hsame, resetgates_lookup. case_decide as Hg; [|done].
  unfold Gates.base. rewrite basevalues_lookup.
  by repeat case_decide.
Qed.

(** X11: [getSDval] without [gg] always fails, its [sdval] being unbound;
    with [gg] it never looks at [T]; and for the gates [ggsd] of sensing
    dot [sdid] it returns [[-324, -450, -290]] when [sdid] is 2 and
    [[-320, -500, -500]] for every other index. *)
Theorem getSDval_cases :
  (∀ T, Batch.getSDval T None = Throw UnboundLocalError) ∧
  (∀ T T' gg, Batch.getSDval T gg = Batch.getSDval T' gg) ∧
  (∀ T sdid,
     Batch.getSDval T (Some (Batch.ggsd sdid))
     = Return (if decide (sdid = 2%Z) then [-324; -450; -290]%Z
               else [-320; -500; -500]%Z)).
Proof.
  split_and!; [done|done|].
  intros T sdid. unfold Batch.getSDval, Batch.ggsd. simpl.
  destruct (decide (sdid = 2%Z)) as [->|Hne]; [done|].
  rewrite decide_False; [done|].
  intros Heq. apply Hne, (inj pretty).
  change "SD2b" with ("SD" +:+ "2b") in Heq.
  apply (inj (String.app "SD")) in Heq.
  assert (pretty sdid = "2") as ->; [|by vm_compute].
  destruct (pretty sdid) as [|c s]; simpl in Heq; [done|].
  injection Heq as -> Hs. destruct s as [|c' s]; [done|].
  simpl in Hs. injection Hs as -> Hs. by destruct s.
Qed.

(** ** Decoding the labels *)

Section encoding_more.
Local Open Scope nat_scope.

Lemma StronglySorted_lt (l : list Z) :
  Sorted Z.le l → NoDup l → StronglySorted Z.lt l.
Proof.
  intros Hs%(Sorted_StronglySorted Z.le) Hnd.
  induction Hs as [|x l Hl IH Hx]; [constructor|].
  apply NoDup_cons in Hnd as [Hnin Hnd].
  constructor; [by apply IH|].
  apply Forall_forall. intros y Hy. rewrite Forall_forall in Hx.
  specialize (Hx y Hy). assert (x ≠ y) by (by intros ->). lia.
Qed.

Lemma occurrences_pos {A} `{EqDecision A} (v : A) l :
  v ∈ l → 0 < occurrences v l.
Proof.
  intros Hv. unfold occurrences.
  assert (v ∈ filter (λ y, y = v) l) as Hin
    by (by apply list_elem_of_filter).
  destruct (filter _ l); [by apply elem_of_nil in Hin|simpl; lia].
Qed.

Lemma occurrences_le {A} `{EqDecision A} (v : A) l :
  occurrences v l ≤ length l.
Proof. apply length_filter. Qed.

(** The keys of [char_indices] are the labels. *)
Lemma char_indices_None labels c :
  NV.char_indices (NV.chars labels) !! c = None ↔ c ∉ labels.
Proof.
  rewrite <-elem_of_chars, eq_None_not_Some. split.
  - intros Hnone [i Hi]%list_elem_of_lookup. apply Hnone. exists i.
    by apply char_indices_lookup; [apply chars_NoDup|].
  - intros Hnin [i Hi]. apply Hnin.
    apply char_indices_lookup in Hi; [|apply chars_NoDup].
    by eapply list_elem_of_lookup_2.
Qed.
End encoding_more.

(** X12: encoding the labels never fails and can be undone: [labelsX] has
    one index per label, each below the number of distinct labels, and
    looking the indices up in [chars] gives the labels back. *)
Theorem labelsX_decode labels :
  ∃ lx,
    NV.labelsX (NV.char_indices (NV.chars labels)) labels = Ok lx ∧
    length lx = length labels ∧
    Forall (λ j, j < length (NV.chars labels))%nat lx ∧
    mapM (λ j, NV.chars labels !! j) lx = Some labels.
Proof.
  destruct (labelsX_chars labels) as (lx & Hlx & Hall).
  exists lx. split_and!; [done| | |].
  - symmetry. by eapply Forall2_length.
  - by eapply encoded_bound.
  - apply mapM_Some. by apply Forall2_flip.
Qed.

(** X13: [chars] lists the distinct labels in strictly increasing order,
    and [char_indices] is its inverse: it maps a label to the one
    position at which [chars] holds it and has no other keys. *)
Theorem chars_char_indices labels :
  StronglySorted Z.lt (NV.chars labels) ∧
  (∀ c, c ∈ NV.chars labels ↔ c ∈ labels) ∧
  (∀ c i, NV.char_indices (NV.chars labels) !! c = Some i ↔
          NV.chars labels !! i = Some c) ∧
  (∀ c, NV.char_indices (NV.chars labels) !! c = None ↔ c ∉ labels).
Proof.
  split_and!.
  - apply StronglySorted_lt; [apply chars_sorted|apply chars_NoDup].
  - apply elem_of_chars.
  - intros c i. apply char_indices_lookup, chars_NoDup.
  - apply char_indices_None.
Qed.

(** X14: every class probability is strictly positive and at most 1:
    [bc] has no empty bin, since the indices are those of the labels that
    occur. *)
Theorem class_prob_positive labels p :
  NV.class_prob labels = Ok p → Forall (λ v, 0 < v ≤ 1)%Qc p.
Proof.
  unfold NV.class_prob.
  destruct (labelsX_chars labels) as (lx & -> & Hall). simpl.
  intros [= <-]. destruct (decide (labels = [])) as [->|Hne].
  { apply Forall2_nil_inv_l in Hall as ->. constructor. }
  assert (lx ≠ []) as Hlx.
  { intros ->. apply Forall2_length in Hall. by destruct labels. }
  pose proof (encoded_max labels lx Hne Hall) as Hmax.
  apply Forall_forall. intros v [i Hi]%list_elem_of_lookup.
  assert (i ≤ max_list lx)%nat as Hile.
  { apply lookup_lt_Some in Hi. rewrite prob_length in Hi by done. lia. }
  rewrite prob_lookup in Hi by done. injection Hi as <-.
  destruct (lookup_lt_is_Some_2 (NV.chars labels) i) as [c Hc]; [lia|].
  assert (i ∈ lx) as Hin.
  { eapply encoded_elem_of; [done|apply chars_NoDup|done|].
    apply elem_of_chars. by eapply list_elem_of_lookup_2. }
  pose proof (occurrences_pos i lx Hin) as Hpos.
  pose proof (occurrences_le i lx) as Hle.
  assert (0 < Qc_of_nat (length lx))%Qc as Hlen
    by (apply Qc_of_nat_pos; lia).
  split.
  - apply Qcmult_pos_pos; [by apply Qc_of_nat_pos|by apply Qcinv_pos].
  - apply (Qcdiv_between 0%Qc 1%Qc); [done| |].
    + rewrite Qcmult_0_l. apply Qc_of_nat_nonneg.
    + rewrite Qcmult_1_l. by apply Qc_of_nat_le.
Qed.

Lemma class_prob_positive_witness :
  Forall (λ v, 0 < v ≤ 1)%Qc (NV.prob [0; 0; 1]%nat).
Proof. by apply (class_prob_positive [2; 2; 5]%Z). Defined.

(** ** [plotI] *)

Section nonzero.
Local Open Scope nat_scope.

Lemma nonzero_snoc mask b :
  nonzero (mask ++ [b]) = nonzero mask ++ (if b then [length mask] else []).
Proof.
  unfold nonzero, enumerate.
  rewrite imap_app, filter_app, fmap_app. f_equal. simpl.
  rewrite Nat.add_0_r, filter_cons, filter_nil. by destruct b.
Qed.

Lemma elem_of_nonzero mask j : j ∈ nonzero mask ↔ mask !! j = Some true.
Proof.
  induction mask as [|b mask IH] using rev_ind.
  - split; [by intros ?%elem_of_nil|done].
  - rewrite nonzero_snoc, elem_of_app, IH, lookup_snoc_Some. split.
    + intros [Hj|Hj]; [left; split; [by eapply lookup_lt_Some|done]|].
      destruct b; [|by apply elem_of_nil in Hj].
      apply list_elem_of_singleton in Hj as ->. by right.
    + intros [[_ Hj]|[-> ->]]; [by left|]. right. by left.
Qed.

Lemma nonzero_sorted mask : StronglySorted lt (nonzero mask).
Proof.
  induction mask as [|b mask IH] using rev_ind; [constructor|].
  rewrite nonzero_snoc. apply StronglySorted_app_2; [|done|].
  - intros j n Hj%elem_of_nonzero%lookup_lt_Some Hn.
    destruct b; [|by apply elem_of_nil in Hn].
    by apply list_elem_of_singleton in Hn as ->.
  - destruct b; repeat constructor.
Qed.

Lemma length_nonzero_eq (labels : list Z) i :
  length (nonzero ((λ l, bool_decide (l = i)) <$> labels))
  = occurrences i labels.
Proof.
  unfold occurrences.
  induction labels as [|l labels IH] using rev_ind; [done|].
  rewrite fmap_app, filter_app, !length_app, <-IH. simpl.
  rewrite nonzero_snoc, length_app, filter_cons, filter_nil.
  case_bool_decide; [by rewrite decide_True|by rewrite decide_False].
Qed.
End nonzero.

(** X15: [plotI(labels, i)] returns exactly the positions at which the
    label is [i], each once and in increasing order, so as many as [i]
    occurs. *)
Theorem plotI_positions labels i :
  StronglySorted lt (NVmore.plotI labels i) ∧
  (∀ j, j ∈ NVmore.plotI labels i ↔ labels !! j = Some i) ∧
  length (NVmore.plotI labels i) = occurrences i labels.
Proof.
  unfold NVmore.plotI. split_and!.
  - apply nonzero_sorted.
  - intros j. rewrite elem_of_nonzero, list_lookup_fmap.
    destruct (labels !! j) as [l|]; simpl; [|done].
    case_bool_decide; split; congruence.
  - apply length_nonzero_eq.
Qed.

(** ** The masked predictions *)

Section y_pred.
Local Open Scope nat_scope.

Lemma elem_of_masked_rows tracked a r :
  r ∈ masked_rows tracked a ↔
  ∃ j, r = S j ∧ S j < length tracked ∧ tracked !! j = Some a.
Proof.
  unfold masked_rows. rewrite list_elem_of_fmap. split.
  - intros (j & -> & Hj). exists j. split; [done|].
    apply elem_of_nonzero in Hj. rewrite list_lookup_fmap in Hj.
    destruct (take _ tracked !! j) as [v|] eqn:Hv; [|done].
    apply lookup_take_Some in Hv as [Hv Hlt].
    simpl in Hj. injection Hj as Hj. apply bool_decide_eq_true in Hj.
    split; [lia|congruence].
  - intros (j & -> & Hlt & Hj). exists j. split; [done|].
    apply elem_of_nonzero. rewrite list_lookup_fmap.
    assert (take (length tracked - 1) tracked !! j = Some a) as ->
      by (apply lookup_take_Some; split; [done|lia]).
    simpl. by rewrite bool_decide_eq_true_2.
Qed.

Lemma zero_rows_lookup rows col (y : list (list Qc)) r :
  foldl (λ y r, alter (<[col := 0%Qc]>) r y) y rows !! r
  = (if decide (r ∈ rows) then <[col := 0%Qc]> else id) <$> y !! r.
Proof.
  revert y. induction rows as [|r' rows IH]; intros y; simpl.
  - by destruct (y !! r).
  - rewrite IH, list_lookup_alter.
    destruct (decide (r' = r)) as [->|Hne].
    + rewrite (decide_True (P := r ∈ r :: rows)) by (by left).
      destruct (y !! r) as [row|]; simpl; [|by case_decide].
      case_decide; simpl; [|done]. by rewrite list_insert_insert_eq.
    + destruct (decide (r ∈ rows)) as [Hin|Hnin].
      * by rewrite decide_True by (by right).
      * rewrite decide_False; [done|].
        intros [?|?]%elem_of_cons; congruence.
Qed.

Lemma zero_rows_shape N k rows col y :
  shape N k y →
  shape N k (foldl (λ y r, alter (<[col := 0%Qc]>) r y) y rows).
Proof.
  revert y. induction rows as [|r rows IH]; intros y Hy; simpl; [done|].
  apply IH. destruct Hy as [Hlen Hrows]. split.
  - by rewrite length_alter.
  - apply Forall_alter; [done|]. intros row _ <-. apply length_insert.
Qed.

Lemma mask_after_KeyError tracked a (cm : gmap Z nat) y :
  cm !! a = None → NVmore.mask_after tracked a cm y = Raise KeyError.
Proof. intros Hnone. unfold NVmore.mask_after. by rewrite Hnone. Qed.

Lemma mask_after_Ok N k tracked a (cm : gmap Z nat) col y :
  shape N k y → length tracked = N → cm !! a = Some col → col < k →
  ∃ y', NVmore.mask_after tracked a cm y = Ok y' ∧ shape N k y' ∧
        ∀ r, y' !! r
             = (if decide (r ∈ masked_rows tracked a)
                then <[col := 0%Qc]> else id) <$> y !! r.
Proof.
  intros Hy Hlen Hcol Hk. unfold NVmore.mask_after. rewrite Hcol. simpl.
  fold (masked_rows tracked a). unfold NVmore.zero_at.
  rewrite decide_True.
  - eexists. split; [done|]. split; [by apply zero_rows_shape|].
    intros r. apply zero_rows_lookup.
  - destruct Hy as [HN Hrows]. split.
    + apply Forall_forall. intros r (j & -> & ? & _)%elem_of_masked_rows.
      lia.
    + intros _. eapply Forall_impl; [done|]. intros row ->. done.
Qed.

Lemma length_onetwo labels : length (NV.onetwo labels) = length labels.
Proof.
  unfold NV.onetwo, NV.track_loop. rewrite track_loop_split.
  apply track_one_length.
Qed.

Lemma length_threefour labels : length (NV.threefour labels) = length labels.
Proof.
  unfold NV.threefour, NV.track_loop. rewrite track_loop_split.
  apply track_one_length.
Qed.

(** [encoder.transform] agrees with the lookups in [char_indices] and
    fails exactly on a value that is no label. *)
Lemma transform_labelsX chars y lx :
  NVmore.transform chars y = Ok lx ↔
  NV.labelsX (NV.char_indices chars) y = Ok lx.
Proof.
  unfold NVmore.transform, NV.labelsX. rewrite !mapR_Ok.
  split; intros Hall; (eapply Forall2_impl; [exact Hall|]); intros c i;
    simpl; by destruct (NV.char_indices chars !! c).
Qed.

Lemma transform_cases labels y :
  (∃ l, NVmore.transform (NV.chars labels) y = Ok l ∧
        Forall (λ c, c ∈ labels) y) ∨
  (NVmore.transform (NV.chars labels) y = Raise ValueError ∧
   ¬ Forall (λ c, c ∈ labels) y).
Proof.
  unfold NVmore.transform. induction y as [|c y IH]; simpl.
  - left. by eexists.
  - destruct (NV.char_indices (NV.chars labels) !! c) as [i|] eqn:Hc; simpl.
    + assert (c ∈ labels) as Hin.
      { destruct (decide (c ∈ labels)) as [|Hnin]; [done|].
        apply char_indices_None in Hnin. congruence. }
      destruct IH as [(l & -> & Hall)|[-> Hnall]]; simpl.
      * left. eexists. split; [done|by constructor].
      * right. split; [done|]. by intros [_ ?]%Forall_cons.
    + right. split; [done|]. intros [Hin _]%Forall_cons.
      by apply char_indices_None in Hc.
Qed.

(** What the script has before line 138. *)
Lemma y_pred_start labels :
  ∃ lx,
    NVmore.transform (NV.chars labels) labels = Ok lx ∧
    NV.labelsX (NV.char_indices (NV.chars labels)) labels = Ok lx ∧
    shape (length labels) (length (NV.prob lx))
      (tile (NV.prob lx) (length labels)) ∧
    (∀ a col, NV.char_indices (NV.chars labels) !! a = Some col →
       col < length (NV.prob lx)).
Proof.
  destruct (labelsX_chars labels) as (lx & Hlx & Hall).
  exists lx. split_and!; [by apply transform_labelsX|done| |].
  - split; [apply length_replicate|]. by apply Forall_replicate.
  - intros a col Hcol.
    apply char_indices_lookup in Hcol; [|apply chars_NoDup].
    assert (labels ≠ []) as Hne.
    { intros ->. apply list_elem_of_lookup_2, elem_of_chars in Hcol.
      by apply elem_of_nil in Hcol. }
    assert (lx ≠ []) as Hlxne.
    { intros ->. apply Forall2_length in Hall. by destruct labels. }
    rewrite prob_length, (encoded_max labels lx) by done.
    by eapply lookup_lt_Some.
Qed.
End y_pred.

(** X16: the masked predictions (lines 73 to 82 and 119 to 141) are built
    exactly when each of the values -1, 0, 1, 2, 3 and 4 occurs among the
    labels; otherwise [encoder.transform] raises [ValueError] at line 78.
    So the lookups of [char_map] and the row and column indices of the
    lines 138 to 141 never fail. *)
Theorem y_pred_needs_all_labels labels :
  (Forall (λ c, c ∈ labels) [-1; 0; 1; 2; 3; 4]%Z →
     ∃ y, NVmore.y_pred labels = Ok y ∧ length y = length labels) ∧
  (¬ Forall (λ c, c ∈ labels) [-1; 0; 1; 2; 3; 4]%Z →
     NVmore.y_pred labels = Raise ValueError).
Proof.
  destruct (y_pred_start labels) as (lx & Hlx & _ & Hy0 & Hcol).
  unfold NVmore.y_pred. rewrite Hlx. simpl.
  destruct (transform_cases labels [-1; 0; 1; 2; 3; 4]%Z)
    as [(l & -> & Hall)|[-> Hnall]]; simpl; [|by split].
  split; [intros _|done].
  set (cm := NV.char_indices (NV.chars labels)) in *.
  assert (∀ tracked a y,
            shape (length labels) (length (NV.prob lx)) y →
            length tracked = length labels →
            a ∈ [-1; 0; 1; 2; 3; 4]%Z →
            ∃ y', NVmore.mask_after tracked a cm y = Ok y' ∧
                  shape (length labels) (length (NV.prob lx)) y') as Hstep.
  { intros tracked a y Hy Hlen Ha.
    rewrite Forall_forall in Hall. specialize (Hall a Ha).
    destruct (cm !! a) as [col|] eqn:Hc;
      [|by apply char_indices_None in Hc].
    destruct (mask_after_Ok _ _ tracked a cm col y Hy Hlen Hc
                (Hcol _ _ Hc)) as (y' & ? & ? & _).
    by exists y'. }
  destruct (Hstep (NV.onetwo labels) 1%Z _ Hy0 (length_onetwo labels))
    as (y1 & -> & Hy1); [rewrite !elem_of_cons; lia|]. simpl.
  destruct (Hstep (NV.onetwo labels) 2%Z _ Hy1 (length_onetwo labels))
    as (y2 & -> & Hy2); [rewrite !elem_of_cons; lia|]. simpl.
  destruct (Hstep (NV.threefour labels) 3%Z _ Hy2 (length_threefour labels))
    as (y3 & -> & Hy3); [rewrite !elem_of_cons; lia|]. simpl.
  destruct (Hstep (NV.threefour labels) 4%Z _ Hy3 (length_threefour labels))
    as (y4 & -> & Hy4 & _); [rewrite !elem_of_cons; lia|].
  by exists y4.
Qed.

Lemma y_pred_needs_all_labels_witness :
  NVmore.y_pred [1; 2; 1; 3; 4]%Z = Raise ValueError ∧
  ∃ y, NVmore.y_pred [0; 1; 2; -1; 4; 3; 1]%Z = Ok y ∧ length y = 7%nat.
Proof.
  split.
  - apply (y_pred_needs_all_labels [1; 2; 1; 3; 4]%Z).
    intros [Hin _]%Forall_cons. revert Hin.
    rewrite !elem_of_cons, elem_of_nil. intros [?|[?|[?|[?|[?|[]]]]]]; lia.
  - apply (y_pred_needs_all_labels [0; 1; 2; -1; 4; 3; 1]%Z).
    repeat constructor.
Defined.

Section masked_predictions.
Local Open Scope nat_scope.

(** One masking step seen at one entry. *)
Lemma masked_entry (D : Prop) `{Decision D} (row : list Qc) col c :
  (if decide D then <[col := 0%Qc]> else id) row !! c
  = if decide (D ∧ col = c ∧ c < length row) then Some 0%Qc else row !! c.
Proof.
  destruct (decide D) as [HD|HD]; simpl.
  - rewrite list_lookup_insert. destruct (decide (col = c)) as [->|Hne].
    + destruct (decide (c < length row)).
      * by rewrite !decide_True.
      * by rewrite !decide_False by tauto.
    + by rewrite !decide_False by tauto.
  - by rewrite decide_False by tauto.
Qed.

Lemma masked_length (D : Prop) `{Decision D} (row : list Qc) col :
  length ((if decide D then <[col := 0%Qc]> else id) row) = length row.
Proof. case_decide; [apply length_insert|done]. Qed.

(** A successful run up to line 141, step by step. *)
Lemma y_pred_Ok_inv labels y :
  NVmore.y_pred labels = Ok y →
  ∃ lx c1 c2 c3 c4,
    NV.labelsX (NV.char_indices (NV.chars labels)) labels = Ok lx ∧
    NV.char_indices (NV.chars labels) !! 1%Z = Some c1 ∧
    NV.char_indices (NV.chars labels) !! 2%Z = Some c2 ∧
    NV.char_indices (NV.chars labels) !! 3%Z = Some c3 ∧
    NV.char_indices (NV.chars labels) !! 4%Z = Some c4 ∧
    length y = length labels ∧
    ∀ r, r < length labels →
      y !! r = Some
        ((if decide (r ∈ masked_rows (NV.threefour labels) 4)
          then <[c4 := 0%Qc]> else id)
           ((if decide (r ∈ masked_rows (NV.threefour labels) 3)
             then <[c3 := 0%Qc]> else id)
              ((if decide (r ∈ masked_rows (NV.onetwo labels) 2)
                then <[c2 := 0%Qc]> else id)
                 ((if decide (r ∈ masked_rows (NV.onetwo labels) 1)
                   then <[c1 := 0%Qc]> else id) (NV.prob lx))))).
Proof.
  destruct (y_pred_start labels) as (lx & Hlx & HlX & Hy0 & Hcol).
  unfold NVmore.y_pred. rewrite Hlx. simpl.
  destruct (NVmore.transform (NV.chars labels) [-1; 0; 1; 2; 3; 4]%Z)
    as [l|e]; simpl; [|done].
  set (cm := NV.char_indices (NV.chars labels)) in *.
  destruct (cm !! 1%Z) as [c1|] eqn:Hc1;
    [|by rewrite mask_after_KeyError].
  destruct (mask_after_Ok _ _ (NV.onetwo labels) 1%Z cm c1 _ Hy0
              (length_onetwo labels) Hc1 (Hcol _ _ Hc1))
    as (y1 & -> & Hy1 & Hr1). simpl.
  destruct (cm !! 2%Z) as [c2|] eqn:Hc2;
    [|by rewrite mask_after_KeyError].
  destruct (mask_after_Ok _ _ (NV.onetwo labels) 2%Z cm c2 _ Hy1
              (length_onetwo labels) Hc2 (Hcol _ _ Hc2))
    as (y2 & -> & Hy2 & Hr2). simpl.
  destruct (cm !! 3%Z) as [c3|] eqn:Hc3;
    [|by rewrite mask_after_KeyError].
  destruct (mask_after_Ok _ _ (NV.threefour labels) 3%Z cm c3 _ Hy2
              (length_threefour labels) Hc3 (Hcol _ _ Hc3))
    as (y3 & -> & Hy3 & Hr3). simpl.
  destruct (cm !! 4%Z) as [c4|] eqn:Hc4;
    [|by rewrite mask_after_KeyError].
  destruct (mask_after_Ok _ _ (NV.threefour labels) 4%Z cm c4 _ Hy3
              (length_threefour labels) Hc4 (Hcol _ _ Hc4))
    as (y4 & -> & Hy4 & Hr4).
  intros [= <-]. exists lx, c1, c2, c3, c4.
  split_and!; [done..|by destruct Hy4|].
  intros r Hr. rewrite Hr4, Hr3, Hr2, Hr1.
  unfold tile. by rewrite lookup_replicate_2.
Qed.
End masked_predictions.

(** X17: when the masked predictions are built, there is one row per
    label and each row is [prob] with some entries set to zero and none
    rescaled: in row [j + 1] the entry of class [a] is zero when [a] is 1
    or 2 and [onetwo[j]] is [a], or [a] is 3 or 4 and [threefour[j]] is
    [a]; all other entries, and the whole of row 0, are those of
    [prob]. *)
Theorem y_pred_rows labels prob y r :
  NV.class_prob labels = Ok prob →
  NVmore.y_pred labels = Ok y →
  (r < length labels)%nat →
  ∃ row, y !! r = Some row ∧ length row = length prob ∧
    ∀ c pc, prob !! c = Some pc →
      let zeroed :=
        ∃ j a, r = S j ∧
          ((a = 1 ∨ a = 2)%Z ∧ NV.onetwo labels !! j = Some a ∨
           (a = 3 ∨ a = 4)%Z ∧ NV.threefour labels !! j = Some a) ∧
          NV.char_indices (NV.chars labels) !! a = Some c in
      (zeroed → row !! c = Some 0%Qc) ∧
      (¬ zeroed → row !! c = Some pc).
Proof.
  intros Hprob (lx & c1 & c2 & c3 & c4 & Hlx & Hc1 & Hc2 & Hc3 & Hc4 &
                Hlen & Hrows)%y_pred_Ok_inv Hr.
  unfold NV.class_prob in Hprob. rewrite Hlx in Hprob. simpl in Hprob.
  injection Hprob as <-.
  eexists. split; [by apply Hrows|]. split; [by rewrite !masked_length|].
  intros c pc Hpc zeroed.
  assert (c < length (NV.prob lx))%nat as Hc by (by eapply lookup_lt_Some).
  rewrite !masked_entry, !masked_length.
  assert (∀ tracked a,
            r ∈ masked_rows tracked a → length tracked = length labels →
            ∃ j, r = S j ∧ tracked !! j = Some a) as Hrow.
  { intros tracked a (j & -> & _ & Hj)%elem_of_masked_rows _. by exists j. }
  assert (∀ tracked a j,
            r = S j → tracked !! j = Some a →
            length tracked = length labels →
            r ∈ masked_rows tracked a) as Hrow'.
  { intros tracked a j -> Hj Hl. apply elem_of_masked_rows.
    exists j. split_and!; [done|lia|done]. }
  split.
  - intros (j & a & -> & [[[-> | ->] Hj]|[[-> | ->] Hj]] & Ha).
    + assert (c1 = c) as -> by congruence.
      pose proof (Hrow' _ _ _ eq_refl Hj (length_onetwo labels)).
      repeat case_decide; try done; tauto.
    + assert (c2 = c) as -> by congruence.
      pose proof (Hrow' _ _ _ eq_refl Hj (length_onetwo labels)).
      repeat case_decide; try done; tauto.
    + assert (c3 = c) as -> by congruence.
      pose proof (Hrow' _ _ _ eq_refl Hj (length_threefour labels)).
      repeat case_decide; try done; tauto.
    + assert (c4 = c) as -> by congruence.
      pose proof (Hrow' _ _ _ eq_refl Hj (length_threefour labels)).
      repeat case_decide; try done; tauto.
  - intros Hnz.
    rewrite !decide_False; [done| | | |].
    + intros ((j & -> & Hj)%Hrow & -> & _); [|apply length_onetwo].
      apply Hnz. exists j, 1%Z. split_and!; [done|left; auto|done].
    + intros ((j & -> & Hj)%Hrow & -> & _); [|apply length_onetwo].
      apply Hnz. exists j, 2%Z. split_and!; [done|left; auto|done].
    + intros ((j & -> & Hj)%Hrow & -> & _); [|apply length_threefour].
      apply Hnz. exists j, 3%Z. split_and!; [done|right; auto|done].
    + intros ((j & -> & Hj)%Hrow & -> & _); [|apply length_threefour].
      apply Hnz. exists j, 4%Z. split_and!; [done|right; auto|done].
Qed.

Lemma y_pred_rows_witness :
  ∃ y row, NVmore.y_pred [-1; 2; 0; 4; 3; 1]%Z = Ok y ∧
           y !! 2%nat = Some row ∧ row !! 3%nat = Some 0%Qc.
Proof.
  destruct (NVmore.y_pred [-1; 2; 0; 4; 3; 1]%Z) as [y|e] eqn:Hy;
    [|by vm_compute in Hy].
  destruct (y_pred_rows [-1; 2; 0; 4; 3; 1]%Z
              (NV.prob [0; 3; 1; 5; 4; 2]%nat) y 2
              eq_refl Hy ltac:(simpl; lia)) as (row & Hrow & _ & Hent).
  exists y, row. split_and!; [done|done|].
  destruct (lookup_lt_is_Some_2 (NV.prob [0; 3; 1; 5; 4; 2]%nat) 3)
    as [pc Hpc]; [vm_compute; lia|].
  apply (Hent 3%nat pc Hpc). exists 1%nat, 2%Z.
  split_and!; [done|left; split; [by right|done]|done].
Defined.

(** ** The values of the tracking arrays *)

Section tracking_more.
Local Open Scope nat_scope.
Variables a b : Z.

Lemma most_recent_values labels i :
  most_recent a b labels i = 0%Z ∨ most_recent a b labels i = a ∨
  most_recent a b labels i = b.
Proof.
  unfold most_recent.
  destruct (last (filter _ _)) as [l|] eqn:Hlast; simpl; [|by left].
  apply last_Some_elem_of, list_elem_of_filter in Hlast as [[->| ->] _];
    auto.
Qed.

Lemma most_recent_hit labels j l :
  labels !! S j = Some l → l = a ∨ l = b →
  most_recent a b labels (S j) = l.
Proof. intros Hl Hab. by rewrite (most_recent_S _ _ _ _ _ Hl), decide_True. Qed.

Lemma most_recent_sticky labels i j :
  a ≠ 0%Z → b ≠ 0%Z → i ≤ j → j < length labels →
  most_recent a b labels i ≠ 0%Z → most_recent a b labels j ≠ 0%Z.
Proof.
  intros Ha Hb Hij Hj Hi. induction Hij as [|j Hij IH]; [done|].
  destruct (lookup_lt_is_Some_2 labels (S j) Hj) as [l Hl].
  rewrite (most_recent_S _ _ _ _ _ Hl). case_decide as Hab.
  - by destruct Hab as [-> | ->].
  - apply IH. lia.
Qed.
End tracking_more.

(** X18: the tracking arrays only hold 0, 1, 2, respectively 0, 3, 4; from
    position 1 on they take the label itself where it is 1 or 2,
    respectively 3 or 4; and once an array is non-zero it stays non-zero
    at every later position. *)
Theorem tracking_values labels i :
  (i < length labels)%nat →
  (∃ v w, NV.onetwo labels !! i = Some v ∧ v ∈ [0; 1; 2]%Z ∧
          NV.threefour labels !! i = Some w ∧ w ∈ [0; 3; 4]%Z) ∧
  (∀ l, (1 ≤ i)%nat → labels !! i = Some l →
     ((l = 1 ∨ l = 2)%Z → NV.onetwo labels !! i = Some l) ∧
     ((l = 3 ∨ l = 4)%Z → NV.threefour labels !! i = Some l)) ∧
  (∀ j, (i ≤ j)%nat → (j < length labels)%nat →
     (NV.onetwo labels !! i ≠ Some 0%Z →
      NV.onetwo labels !! j ≠ Some 0%Z) ∧
     (NV.threefour labels !! i ≠ Some 0%Z →
      NV.threefour labels !! j ≠ Some 0%Z)).
Proof.
  intros Hi. split_and!.
  - exists (most_recent 1 2 labels i), (most_recent 3 4 labels i).
    rewrite onetwo_lookup, threefour_lookup by done.
    rewrite !elem_of_cons.
    destruct (most_recent_values 1 2 labels i) as [->|[->| ->]];
      destruct (most_recent_values 3 4 labels i) as [->|[->| ->]];
      split_and!; auto.
  - intros l Hi1 Hl. destruct i as [|i]; [lia|].
    rewrite onetwo_lookup, threefour_lookup by done.
    split; intros Hab; f_equal; by apply most_recent_hit.
  - intros j Hij Hj.
    rewrite !onetwo_lookup, !threefour_lookup by lia.
    assert (∀ a b, a ≠ 0%Z → b ≠ 0%Z →
              Some (most_recent a b labels i) ≠ Some 0%Z →
              Some (most_recent a b labels j) ≠ Some 0%Z) as Hgen.
    { intros a b Ha Hb Hnz [= Hz].
      apply (most_recent_sticky a b labels i j Ha Hb Hij Hj); [|done].
      intros Hzi. apply Hnz. by rewrite Hzi. }
    split; by apply Hgen.
Qed.

Lemma tracking_values_witness :
  NV.onetwo [0; 1; 0; 3; 0]%Z !! 4%nat ≠ Some 0%Z.
Proof.
  destruct (tracking_values [0; 1; 0; 3; 0]%Z 1 ltac:(simpl; lia))
    as (_ & _ & H).
  by apply (H 4%nat); [lia|simpl; lia|].
Defined.

(** ** The generator as two two-level systems *)

Section generator_more.
Local Open Scope nat_scope.
Variable p : Qc.

Lemma two_level_flip_a a b :
  Z.lxor (two_level a b) 1 = two_level (S a) b.
Proof.
  unfold two_level. rewrite Nat.odd_succ, <-Nat.negb_odd.
  by destruct (Nat.odd a), (Nat.odd b).
Qed.

Lemma two_level_flip_b a b :
  Z.lxor (two_level a b) 2 = two_level a (S b).
Proof.
  unfold two_level. rewrite Nat.odd_succ, <-Nat.negb_odd.
  by destruct (Nat.odd a), (Nat.odd b).
Qed.

Lemma a_flips_le g m : a_flips p g m ≤ m.
Proof.
  unfold a_flips. etrans; [apply length_filter|]. by rewrite length_seq.
Qed.

Lemma a_flips_S g m :
  a_flips p g (S m)
  = a_flips p g m +
    (if decide (NV.samples g (NV.drawn g + m) ≤ p)%Qc then 1 else 0).
Proof.
  unfold a_flips. rewrite seq_S, filter_app, length_app. simpl.
  rewrite filter_cons, filter_nil. by case_decide.
Qed.

Local Arguments NV.flip_body : simpl never.

Lemma flips_closed N g m :
  m < N →
  (flips p N g m).2
    = {| NV.samples := NV.samples g; NV.drawn := NV.drawn g + m |} ∧
  length (flips p N g m).1 = N ∧
  ∀ i, i ≤ m →
    (flips p N g m).1 !! i
    = Some (two_level (a_flips p g i) (i - a_flips p g i)).
Proof.
  induction m as [|m IH]; intros Hm.
  - unfold flips; simpl. split_and!.
    + destruct g. simpl. by rewrite Nat.add_0_r.
    + apply length_replicate.
    + intros i Hi. assert (i = 0) as -> by lia.
      unfold Np.zeros. by rewrite lookup_replicate_2 by lia.
  - destruct IH as (Hg & Hlen & Hx); [lia|].
    unfold flips in *. rewrite seq_S, foldl_app; simpl.
    destruct (foldl (NV.flip_body p) _ (seq 0 m)) as [x g'] eqn:Hfold.
    simpl in *. subst g'.
    pose proof (Hx m ltac:(lia)) as Hxm.
    pose proof (a_flips_le g m) as Hle.
    unfold NV.flip_body, NV.rand; simpl.
    rewrite (list_lookup_total_correct _ _ _ Hxm).
    replace (m + 1) with (S m) by lia.
    rewrite two_level_flip_a, two_level_flip_b.
    assert (∀ v, length (<[S m := v]> x) = N) as Hlen'
      by (intros v; by rewrite length_insert).
    assert (∀ v i, i ≤ m → <[S m := v]> x !! i
              = Some (two_level (a_flips p g i) (i - a_flips p g i)))
      as Hold.
    { intros v i Hi. rewrite list_lookup_insert_ne by lia. by apply Hx. }
    case_decide as Hu; simpl.
    + split_and!; [f_equal; lia|done|].
      intros i Hi. destruct (decide (i = S m)) as [->|]; [|apply Hold; lia].
      rewrite list_lookup_insert_eq by lia. f_equal.
      rewrite a_flips_S, decide_True by done. f_equal; lia.
    + split_and!; [f_equal; lia|done|].
      intros i Hi. destruct (decide (i = S m)) as [->|]; [|apply Hold; lia].
      rewrite list_lookup_insert_eq by lia. f_equal.
      rewrite a_flips_S, decide_False by done. f_equal; lia.
Qed.

Lemma a_flips_all g m :
  (∀ n, NV.samples g n ≤ p)%Qc → a_flips p g m = m.
Proof.
  intros Hall. induction m as [|m IH]; [done|].
  rewrite a_flips_S, IH, decide_True by done. lia.
Qed.

Lemma a_flips_none g m :
  (∀ n, p < NV.samples g n)%Qc → a_flips p g m = 0.
Proof.
  intros Hnone. induction m as [|m IH]; [done|].
  rewrite a_flips_S, IH, decide_False; [done|].
  by apply Qclt_not_le.
Qed.
End generator_more.

(** X19: [generate_double2lvl] is the state of two two-level systems:
    bit 0 of [x[i]] is the parity of the number of draws at most [p] among
    the first [i] draws, bit 1 the parity of the number of the others; it
    takes [N - 1] draws from the generator. So when every draw is at most
    [p] the array alternates 0, 1, 0, 1, ..., and when none is it
    alternates 0, 2, 0, 2, .... *)
Theorem generate_double2lvl_parities (N : nat) (p q : Qc) (g : NV.rng)
    (i : nat) :
  (i < N)%nat →
  (NV.generate_double2lvl N p q g).1 !! i
    = Some (two_level (a_flips p g i) (i - a_flips p g i)) ∧
  (NV.generate_double2lvl N p q g).2
    = {| NV.samples := NV.samples g;
         NV.drawn := NV.drawn g + (N - 1) |} ∧
  ((∀ n, NV.samples g n ≤ p)%Qc →
     (NV.generate_double2lvl N p q g).1 !! i = Some (Z.b2z (Nat.odd i))) ∧
  ((∀ n, p < NV.samples g n)%Qc →
     (NV.generate_double2lvl N p q g).1 !! i
       = Some (2 * Z.b2z (Nat.odd i))%Z).
Proof.
  intros Hi.
  destruct (flips_closed p N g (N - 1) ltac:(lia)) as (Hg & _ & Hx).
  change (flips p N g (N - 1)) with (NV.generate_double2lvl N p q g) in *.
  split_and!; [apply Hx; lia|done| |].
  - intros Hall. rewrite Hx by lia. rewrite a_flips_all by done.
    rewrite Nat.sub_diag. unfold two_level. simpl. f_equal. lia.
  - intros Hnone. rewrite Hx by lia. rewrite a_flips_none by done.
    rewrite Nat.sub_0_r. unfold two_level. simpl. done.
Qed.

Lemma generate_double2lvl_parities_witness :
  (NV.generate_double2lvl 5 1%Qc 0%Qc
     {| NV.samples := λ _, (1 / 2)%Qc; NV.drawn := 0 |}).1 !! 3%nat
  = Some 1%Z.
Proof.
  destruct (generate_double2lvl_parities 5 1%Qc 0%Qc
              {| NV.samples := λ _, (1 / 2)%Qc; NV.drawn := 0 |} 3
              ltac:(lia)) as (_ & _ & H & _).
  apply H. intros n. by vm_compute.
Defined.

(** ** The rows of the bigram predictions *)



(** ** [flatten] and [onedotScan] *)

(** X21: [flatten] composes with the list operations: it distributes over
    the concatenation of two lists of lists, it undoes the wrapping of
    every element in a list of its own, and its elements are exactly the
    elements of the inner lists. *)
Theorem flatten_compose {A} (l1 l2 : list (list A)) (l : list A) :
  Tools.flatten (l1 ++ l2) = Tools.flatten l1 ++ Tools.flatten l2 ∧
  Tools.flatten ((λ x, [x]) <$> l) = l ∧
  (∀ x, x ∈ Tools.flatten l1 ↔ ∃ inner, inner ∈ l1 ∧ x ∈ inner).
Proof.
  split_and!.
  - rewrite !flatten_is_concat. apply concat_app.
  - rewrite flatten_is_concat.
    induction l as [|x l IH]; csimpl; [done|]. by rewrite IH.
  - intros x. apply elem_of_flatten.
Qed.

Section onedotScan.
Local Open Scope Qc_scope.

Lemma minimum_le_r a b : Batch.minimum a b ≤ b.
Proof.
  unfold Batch.minimum. case_decide; [done|apply Qcle_refl].
Qed.

(** The scan runs downwards from its start exactly for a pinch value
    below [limit + 10 - offset]... *)
Lemma minimum_gt_end p offset limit :
  0 < offset + Qc_of_Z 10 →
  (p - Qc_of_Z 10 < Batch.minimum (p + offset) limit ↔
   p < limit + Qc_of_Z 10).
Proof.
  intros Hoff. unfold Batch.minimum.
  assert (p - Qc_of_Z 10 < p + offset) as Hlt.
  { apply (Qcplus_lt_mono_l _ _ (Qc_of_Z 10 - p)).
    replace (Qc_of_Z 10 - p + (p - Qc_of_Z 10)) with 0 by ring.
    by replace (Qc_of_Z 10 - p + (p + offset))
      with (offset + Qc_of_Z 10) by ring. }
  assert (p - Qc_of_Z 10 < limit ↔ p < limit + Qc_of_Z 10) as Hiff.
  { rewrite (Qcplus_lt_mono_r (p - Qc_of_Z 10) limit (Qc_of_Z 10)).
    by replace (p - Qc_of_Z 10 + Qc_of_Z 10) with p by ring. }
  case_decide as Hmin; [|done].
  split; [|done]. intros _. apply Hiff.
  by apply Qclt_le_trans with (p + offset).
Qed.
End onedotScan.

(** X22: [onedotScan] builds its scan job exactly when the dot has three
    gates and three pinch values and [basevalues] knows the plunger, its
    second gate. It then sets the plunger and no other gate, steps the
    first gate and sweeps the third, both by [-12] when [full] is 0 and
    by [-6] otherwise, never starts above 90, and a start lies above its
    end exactly when the pinch value is below 100. *)
Theorem onedotScan_scanjob_ranges full od basevalues gates :
  ((∃ r, Batch.onedotScan_scanjob full od basevalues gates = Ok r) ↔
   (3 ≤ length (Batch.od_gates od))%nat ∧
   (3 ≤ length (Batch.od_pinchvalues od))%nat ∧
   ∃ g1, Batch.od_gates od !! 1%nat = Some g1 ∧
         is_Some (basevalues !! g1)) ∧
  ∀ gates' job,
    Batch.onedotScan_scanjob full od basevalues gates = Ok (gates', job) →
    (∃ g0 g1 g2 p0 p2 plunger,
       Batch.od_gates od !! 0%nat = Some g0 ∧
       Batch.od_gates od !! 1%nat = Some g1 ∧
       Batch.od_gates od !! 2%nat = Some g2 ∧
       Batch.od_pinchvalues od !! 0%nat = Some p0 ∧
       Batch.od_pinchvalues od !! 2%nat = Some p2 ∧
       basevalues !! g1 = Some plunger ∧
       gates' = <[g1 := plunger]> gates ∧
       Batch.sw_gates (Batch.stepdata job) = [g0] ∧
       Batch.sw_gates (Batch.sweepdata job) = [g2] ∧
       (Batch.sw_end (Batch.stepdata job)
          < Batch.sw_start (Batch.stepdata job) ↔ p0 < Qc_of_Z 100)%Qc ∧
       (Batch.sw_end (Batch.sweepdata job)
          < Batch.sw_start (Batch.sweepdata job) ↔ p2 < Qc_of_Z 100)%Qc) ∧
    (Batch.sw_start (Batch.stepdata job) ≤ Qc_of_Z 90)%Qc ∧
    (Batch.sw_start (Batch.sweepdata job) ≤ Qc_of_Z 90)%Qc ∧
    Batch.sw_step (Batch.stepdata job)
      = (if decide (full = 0%Z) then -12 else -6)%Z ∧
    Batch.sw_step (Batch.sweepdata job)
      = Batch.sw_step (Batch.stepdata job).
Proof.
  unfold Batch.onedotScan_scanjob.
  destruct od as [gg inst pvs]; simpl.
  split.
  - split.
    + intros [r Hr].
      destruct (gg !! 1%nat) as [g1|] eqn:Hg1; simpl in Hr; [|done].
      destruct (basevalues !! g1) as [plunger|] eqn:Hbv; simpl in Hr;
        [|done].
      destruct (pvs !! 0%nat) as [p0|] eqn:Hp0; simpl in Hr; [|done].
      destruct (pvs !! 2%nat) as [p2|] eqn:Hp2; simpl in Hr; [|done].
      destruct (gg !! 0%nat) as [g0|] eqn:Hg0; simpl in Hr; [|done].
      destruct (gg !! 2%nat) as [g2|] eqn:Hg2; simpl in Hr; [|done].
      apply lookup_lt_Some in Hg2, Hp2.
      split_and!; [lia|lia|]. exists g1. split; [done|by eexists].
    + intros (Hgg & Hpv & g1 & Hg1 & [plunger Hbv]).
      destruct (lookup_lt_is_Some_2 gg 0) as [g0 Hg0]; [lia|].
      destruct (lookup_lt_is_Some_2 gg 2) as [g2 Hg2]; [lia|].
      destruct (lookup_lt_is_Some_2 pvs 0) as [p0 Hp0]; [lia|].
      destruct (lookup_lt_is_Some_2 pvs 2) as [p2 Hp2]; [lia|].
      rewrite Hg1; simpl. rewrite Hbv; simpl. rewrite Hp0; simpl.
      rewrite Hp2; simpl. rewrite Hg0; simpl. rewrite Hg2; simpl.
      by eexists.
  - intros gates' job.
    destruct (gg !! 1%nat) as [g1|] eqn:Hg1; simpl; [|done].
    destruct (basevalues !! g1) as [plunger|] eqn:Hbv; simpl; [|done].
    destruct (pvs !! 0%nat) as [p0|] eqn:Hp0; simpl; [|done].
    destruct (pvs !! 2%nat) as [p2|] eqn:Hp2; simpl; [|done].
    destruct (gg !! 0%nat) as [g0|] eqn:Hg0; simpl; [|done].
    destruct (gg !! 2%nat) as [g2|] eqn:Hg2; simpl; [|done].
    intros [= <- <-]. simpl.
    split_and!; [|apply minimum_le_r..|done|done].
    exists g0, g1, g2, p0, p2, plunger.
    split_and!; try done.
    + f_equal. ring.
    + replace (p0 + 0 - Qc_of_Z 10)%Qc with (p0 - Qc_of_Z 10)%Qc by ring.
      rewrite (minimum_gt_end p0 (Qc_of_Z 400) (Qc_of_Z 90))
        by (by vm_compute).
      by replace (Qc_of_Z 90 + Qc_of_Z 10)%Qc with (Qc_of_Z 100)
        by (by apply Qc_is_canon).
    + replace (p2 + 0 - Qc_of_Z 10)%Qc with (p2 - Qc_of_Z 10)%Qc by ring.
      rewrite (minimum_gt_end p2 (Qc_of_Z 300) (Qc_of_Z 90))
        by (by vm_compute).
      by replace (Qc_of_Z 90 + Qc_of_Z 10)%Qc with (Qc_of_Z 100)
        by (by apply Qc_is_canon).
Qed.

Lemma onedotScan_scanjob_ranges_witness :
  ∃ r, Batch.onedotScan_scanjob 0
         (Batch.Onedot ["L"; "P1"; "D1"] 1
            [Qc_of_Z (-300); Qc_of_Z (-200); Qc_of_Z (-350)])
         {["P1" := Qc_of_Z (-80)]} ∅ = Ok r.
Proof.
  apply (onedotScan_scanjob_ranges 0
           (Batch.Onedot ["L"; "P1"; "D1"] 1
              [Qc_of_Z (-300); Qc_of_Z (-200); Qc_of_Z (-350)])
           {["P1" := Qc_of_Z (-80)]} ∅).
  simpl. split_and!; [lia|lia|]. exists "P1". split; [done|by eexists].
Defined.
